(** * Long-term memory store for agents: a shallow embedding

    The development follows the four Python modules of the core:

    - [memory_utils.py]     (tokenizer, Jaccard similarity, validation,
                             keyword extraction, tag merging),
    - [memory_database.py]  (the three SQLite tables and their CRUD / query
                             operations),
    - [memory_retrieval.py] (similarity and importance retrieval),
    - [long_term_memory.py] (the facade: validated inserts, procedure
                             statistics, consolidation, delete).

    Conventions of the embedding.

    - Python [float] values are rationals ([Q]); arithmetic is exact and
      results are compared with [==].
    - Python [str] values are [string]s of ASCII characters.  Codes above
      127 are treated as non-word characters and are left alone by [lower].
    - A table is the list of its rows in rowid order together with the
      AUTOINCREMENT counter.  Where an [ORDER BY] key has ties, rows are
      listed in rowid order (SQLite leaves this open).
    - Effects are threaded through a state-and-exception monad over the
      [world]: the database plus the number of clock readings made so far.
      The k-th call of [datetime.now().isoformat()] returns [wall_clock k]. *)

From Stdlib Require Import Ascii String QArith Qminmax Lqa.
From stdpp Require Import gmap strings list sorting.

Local Open Scope string_scope.
Local Open Scope Z_scope.

(** ** memory_utils.py *)

Module MemoryUtils.

(** [str.lower] on ASCII text. *)
Definition is_upper (c : ascii) : bool :=
  let n := N_of_ascii c in ((65 <=? n) && (n <=? 90))%N.

Definition lower_char (c : ascii) : ascii :=
  if is_upper c then ascii_of_N (N_of_ascii c + 32) else c.

Fixpoint lower (s : string) : string :=
  match s with
  | EmptyString => EmptyString
  | String c r => String (lower_char c) (lower r)
  end.

(** The class [\w] of the [re] module on ASCII: letters, digits, underscore. *)
Definition is_word_char (c : ascii) : bool :=
  let n := N_of_ascii c in
  (((48 <=? n) && (n <=? 57)) || ((65 <=? n) && (n <=? 90))
   || ((97 <=? n) && (n <=? 122)) || (n =? 95))%N.

Definition flush (cur : string) : list string :=
  match cur with
  | EmptyString => []
  | _ => [cur]
  end.

(** [re.findall(r'\w+', text)]: the maximal runs of word characters, left to
    right.  [cur] is the run being read. *)
Fixpoint findall_word (cur : string) (text : string) : list string :=
  match text with
  | EmptyString => flush cur
  | String c r =>
      if is_word_char c then findall_word (cur ++ String c EmptyString) r
      else flush cur ++ findall_word EmptyString r
  end.

Definition _tokenize (text : string) : list string :=
  findall_word EmptyString text.

(** Python truthiness of a [str]. *)
Definition str_truthy (s : string) : bool :=
  match s with
  | EmptyString => false
  | _ => true
  end.

Definition token_set (text : string) : gset string :=
  list_to_set (_tokenize (lower text)).

Definition calculate_text_similarity (text1 text2 : string) : Q :=
  if negb (str_truthy text1) || negb (str_truthy text2) then 0%Q
  else
    let tokens1 := token_set text1 in
    let tokens2 := token_set text2 in
    if bool_decide (tokens1 = ∅) || bool_decide (tokens2 = ∅) then 0%Q
    else
      let intersection := tokens1 ∩ tokens2 in
      let union := tokens1 ∪ tokens2 in
      if bool_decide (union = ∅) then 0%Q
      else (inject_Z (Z.of_nat (size intersection))
            / inject_Z (Z.of_nat (size union)))%Q.

(** [min(20.0, retrieval_count * boost_factor)] *)
Definition calculate_retrieval_boost (retrieval_count : Z) (boost_factor : Q) : Q :=
  Qmin 20 (inject_Z retrieval_count * boost_factor).

(** *** Stable sorting

    [list.sort] / [sorted] with a key, and [ORDER BY], keep the input order
    of elements with equal keys.  [before y x] says that [y] has to come
    strictly before [x]. *)
Section StableSort.
Context {A : Type} (before : A -> A -> bool).

Fixpoint insert_sorted (x : A) (l : list A) : list A :=
    match l with
    | [] => [x]
    | y :: ys => if before y x then y :: insert_sorted x ys else x :: y :: ys
    end.

Fixpoint stable_sort (l : list A) : list A :=
    match l with
    | [] => []
    | x :: xs => insert_sorted x (stable_sort xs)
    end.
End StableSort.

(** [lst[:n]] for a Python int [n]. *)
Definition slice_to {A} (n : Z) (l : list A) : list A :=
  if 0 <=? n then take (Z.to_nat n) l
  else take (length l - Z.to_nat (- n)) l.

(** *** merge_tags *)

(** [all_tags.update(tags)] for each truthy [tags]; a column that is NULL
    reads as [None]. *)
Fixpoint update_all (all_tags : gset string) (tags_list : list (option (list string)))
  : gset string :=
  match tags_list with
  | [] => all_tags
  | None :: rest => update_all all_tags rest
  | Some tags :: rest => update_all (all_tags ∪ list_to_set tags) rest
  end.

Definition merge_tags (tags_list : list (option (list string))) : list string :=
  stable_sort String.ltb (elements (update_all ∅ tags_list)).

(** *** extract_keywords *)

Definition stop_words : list string :=
  [ "the"; "is"; "at"; "which"; "on"; "a"; "an"; "as"; "are"; "was"; "were";
    "be"; "been"; "being"; "have"; "has"; "had"; "do"; "does"; "did";
    "will"; "would"; "should"; "could"; "may"; "might"; "must";
    "i"; "you"; "he"; "she"; "it"; "we"; "they"; "them"; "their";
    "this"; "that"; "these"; "those"; "and"; "or"; "but"; "if"; "then";
    "in"; "of"; "to"; "for"; "with"; "from"; "by" ].

Definition str_in (t : string) (l : list string) : bool :=
  existsb (String.eqb t) l.

(** [freq[token] = freq.get(token, 0) + 1] on an insertion-ordered dict. *)
Fixpoint freq_incr (token : string) (freq : list (string * nat)) : list (string * nat) :=
  match freq with
  | [] => [(token, 1%nat)]
  | (w, c) :: rest =>
      if String.eqb w token then (w, S c) :: rest
      else (w, c) :: freq_incr token rest
  end.

Definition count_frequencies (tokens : list string) : list (string * nat) :=
  fold_left (fun freq token => freq_incr token freq) tokens [].

Definition extract_keywords (text : string) (max_keywords : Z) : list string :=
  if negb (str_truthy text) then []
  else
    let tokens := _tokenize (lower text) in
    let filtered_tokens :=
      filter (fun t => negb (str_in t stop_words) && (2 <? String.length t)%nat) tokens in
    let freq := count_frequencies filtered_tokens in
    let sorted_keywords :=
      stable_sort (fun y x : string * nat => (snd x <? snd y)%nat) freq in
    map fst (slice_to max_keywords sorted_keywords).

(** *** Validation *)

(** The Python values that reach the validators. *)
Inductive pyval :=
| PyNone
| PyNum (q : Q)
| PyStr (s : string)
| PyList (l : list string).

Definition truthy (v : pyval) : bool :=
  match v with
  | PyNone => false
  | PyNum q => negb (Qeq_bool q 0)
  | PyStr s => str_truthy s
  | PyList l => match l with [] => false | _ => true end
  end.

(** [field not in memory or not memory[field]] *)
Definition missing (field : option pyval) : bool :=
  match field with
  | None => true
  | Some v => negb (truthy v)
  end.

(** [not isinstance(v, (int, float)) or v < lo or v > hi] *)
Definition out_of_range (v : pyval) (lo hi : Q) : bool :=
  match v with
  | PyNum q => negb (Qle_bool lo q) || negb (Qle_bool q hi)
  | _ => true
  end.

(** The dict handed to the episodic insert path.  A key that is absent is
    [None].  The four entries the validator inspects are Python values; the
    others are typed as the column they fill. *)
Record episodic_dict := {
  ed_event_description : option pyval;
  ed_timestamp : option pyval;
  ed_importance_score : option pyval;
  ed_emotional_valence : option pyval;
  ed_duration : option Q;
  ed_context : option string;
  ed_participants : option (list string);
  ed_location : option string;
  ed_sensory_data : option string;
  ed_observations : option string;
  ed_tags : option (list string);
  ed_categories : option (list string);
  ed_associated_concepts : option (list string);
  ed_retrieval_count : option Z;
  ed_last_accessed : option string;
  ed_created_at : option string;
  ed_updated_at : option string
}.

Record semantic_dict := {
  sd_concept_name : option pyval;
  sd_definition : option pyval;
  sd_confidence_score : option pyval;
  sd_properties : option string;
  sd_relationships : option string;
  sd_source : option string;
  sd_evidence : option string;
  sd_tags : option (list string);
  sd_categories : option (list string);
  sd_linked_episodes : option (list Z);
  sd_created_at : option string;
  sd_updated_at : option string
}.

Record procedural_dict := {
  pd_procedure_name : option pyval;
  pd_description : option pyval;
  pd_steps : option pyval;
  pd_success_rate : option pyval;
  pd_purpose : option string;
  pd_parameters : option string;
  pd_execution_count : option Z;
  pd_average_duration : option Q;
  pd_prerequisites : option (list string);
  pd_dependencies : option (list string);
  pd_tags : option (list string);
  pd_categories : option (list string);
  pd_last_executed : option string;
  pd_created_at : option string;
  pd_updated_at : option string
}.

Section Validation.
(** Whether [datetime.fromisoformat] accepts the string. *)
Variable fromisoformat_ok : string -> bool.

(** [datetime.fromisoformat(v)] raises [TypeError] on a non-string. *)
Definition timestamp_parses (v : pyval) : bool :=
    match v with
    | PyStr s => fromisoformat_ok s
    | _ => false
    end.

Definition validate_episodic_memory (memory : episodic_dict) : bool * option string :=
    if missing (ed_event_description memory)
    then (false, Some "Missing required field: event_description")
    else if missing (ed_timestamp memory)
    then (false, Some "Missing required field: timestamp")
    else if negb (from_option timestamp_parses false (ed_timestamp memory))
    then (false, Some "Invalid timestamp format. Use ISO format (YYYY-MM-DDTHH:MM:SS)")
    else if from_option (fun score => out_of_range score 0 100) false
              (ed_importance_score memory)
    then (false, Some "Importance score must be between 0 and 100")
    else if from_option (fun valence => out_of_range valence (-1) 1) false
              (ed_emotional_valence memory)
    then (false, Some "Emotional valence must be between -1 and 1")
    else (true, None).
End Validation.

Definition validate_semantic_memory (memory : semantic_dict) : bool * option string :=
  if missing (sd_concept_name memory)
  then (false, Some "Missing required field: concept_name")
  else if missing (sd_definition memory)
  then (false, Some "Missing required field: definition")
  else if from_option (fun score => out_of_range score 0 1) false
            (sd_confidence_score memory)
  then (false, Some "Confidence score must be between 0 and 1")
  else (true, None).

(** [isinstance(memory['steps'], list)] *)
Definition is_list (v : option pyval) : bool :=
  match v with
  | Some (PyList _) => true
  | _ => false
  end.

Definition validate_procedural_memory (memory : procedural_dict) : bool * option string :=
  if missing (pd_procedure_name memory)
  then (false, Some "Missing required field: procedure_name")
  else if missing (pd_description memory)
  then (false, Some "Missing required field: description")
  else if missing (pd_steps memory)
  then (false, Some "Missing required field: steps")
  else if negb (is_list (pd_steps memory))
  then (false, Some "Steps must be a list")
  else if from_option (fun rate => out_of_range rate 0 100) false
            (pd_success_rate memory)
  then (false, Some "Success rate must be between 0 and 100")
  else (true, None).

(** *** calculate_importance_score *)

Definition calculate_importance_score (emotional_intensity novelty relevance recency : Q)
  : Q :=
  let score :=
    (emotional_intensity * (3 # 10) + novelty * (25 # 100)
     + relevance * (25 # 100) + recency * (2 # 10))%Q in
  Qmin 100 (Qmax 0 (score * 100)).

(** [needle in hay] on strings. *)
Fixpoint is_substring (needle hay : string) : bool :=
  String.prefix needle hay
  || match hay with
     | EmptyString => false
     | String _ rest => is_substring needle rest
     end.

End MemoryUtils.

Import MemoryUtils.

(** ** The world: tables, clock, exceptions *)

Module World.

Record episodic_row := {
  e_id : Z;
  e_timestamp : string;
  e_duration : option Q;
  e_event_description : string;
  e_context : option string;
  e_participants : option (list string);
  e_location : option string;
  e_sensory_data : option string;
  e_observations : option string;
  e_importance_score : Q;
  e_emotional_valence : Q;
  e_tags : option (list string);
  e_categories : option (list string);
  e_associated_concepts : option (list string);
  e_retrieval_count : Z;
  e_last_accessed : option string;
  e_created_at : string;
  e_updated_at : string
}.

Record semantic_row := {
  s_id : Z;
  s_concept_name : string;
  s_definition : string;
  s_properties : option string;
  s_relationships : option string;
  s_confidence_score : Q;
  s_source : option string;
  s_evidence : option string;
  s_tags : option (list string);
  s_categories : option (list string);
  s_linked_episodes : option (list Z);
  s_created_at : string;
  s_updated_at : string
}.

Record procedural_row := {
  p_id : Z;
  p_procedure_name : string;
  p_description : string;
  p_purpose : option string;
  p_steps : list string;
  p_parameters : option string;
  p_success_rate : Q;
  p_execution_count : Z;
  p_average_duration : option Q;
  p_prerequisites : option (list string);
  p_dependencies : option (list string);
  p_tags : option (list string);
  p_categories : option (list string);
  p_last_executed : option string;
  p_created_at : string;
  p_updated_at : string
}.

(** Each table: its rows in rowid order and the AUTOINCREMENT high-water
    mark kept in [sqlite_sequence]. *)
Record database := {
  episodic_memory : list episodic_row;
  episodic_seq : Z;
  semantic_memory : list semantic_row;
  semantic_seq : Z;
  procedural_memory : list procedural_row;
  procedural_seq : Z
}.

Record world := {
  db : database;
  clock_reads : nat
}.

Definition empty_database : database :=
  {| episodic_memory := []; episodic_seq := 0;
     semantic_memory := []; semantic_seq := 0;
     procedural_memory := []; procedural_seq := 0 |}.

Definition with_episodic (rows : list episodic_row) (seq : Z) (d : database) : database :=
  {| episodic_memory := rows; episodic_seq := seq;
     semantic_memory := semantic_memory d; semantic_seq := semantic_seq d;
     procedural_memory := procedural_memory d; procedural_seq := procedural_seq d |}.

Definition with_semantic (rows : list semantic_row) (seq : Z) (d : database) : database :=
  {| episodic_memory := episodic_memory d; episodic_seq := episodic_seq d;
     semantic_memory := rows; semantic_seq := seq;
     procedural_memory := procedural_memory d; procedural_seq := procedural_seq d |}.

Definition with_procedural (rows : list procedural_row) (seq : Z) (d : database) : database :=
  {| episodic_memory := episodic_memory d; episodic_seq := episodic_seq d;
     semantic_memory := semantic_memory d; semantic_seq := semantic_seq d;
     procedural_memory := rows; procedural_seq := seq |}.

Inductive exn :=
| ValueError (msg : string)
| KeyError (key : string)
| IntegrityError (msg : string)
| InterfaceError
| ZeroDivisionError
| AttributeError
| TypeError.

Inductive outcome (A : Type) :=
| Ok (a : A)
| Raise (e : exn).
Arguments Ok {A} a.
Arguments Raise {A} e.

(** A computation reads and writes the world and may raise; what was written
    before a raise stays written. *)
Definition M (A : Type) : Type := world -> outcome A * world.

Definition ret {A} (a : A) : M A := fun w => (Ok a, w).

Definition bind {A B} (c : M A) (k : A -> M B) : M B :=
  fun w =>
    match c w with
    | (Ok a, w') => k a w'
    | (Raise e, w') => (Raise e, w')
    end.

Definition raise {A} (e : exn) : M A := fun w => (Raise e, w).

Definition get_db : M database := fun w => (Ok (db w), w).

Definition put_db (d : database) : M unit :=
  fun w => (Ok tt, {| db := d; clock_reads := clock_reads w |}).

End World.

Import World.

Declare Scope monad_scope.
Delimit Scope monad_scope with monad.
Notation "'run' x <~ c 'in' k" := (bind c (fun x => k))
  (at level 10, x name, c at level 100, k at level 200) : monad_scope.
Notation "'exec' c 'in' k" := (bind c (fun _ => k))
  (at level 10, c at level 100, k at level 200) : monad_scope.
Local Open Scope monad_scope.

(** ** memory_database.py *)

Module MemoryDatabase.

(** *** SQL helpers *)

Definition fold_case (c : ascii) : ascii := lower_char c.

(** The [LIKE] operator: [%] matches any run, [_] any one character, letters
    match without regard to ASCII case. *)
Fixpoint like_match (pat : string) : string -> bool :=
  match pat with
  | EmptyString => fun text => negb (str_truthy text)
  | String c pat' =>
      if Ascii.eqb c "%" then
        fix skip (text : string) : bool :=
          like_match pat' text
          || match text with
             | EmptyString => false
             | String _ text' => skip text'
             end
      else if Ascii.eqb c "_" then
        fun text =>
          match text with
          | EmptyString => false
          | String _ text' => like_match pat' text'
          end
      else
        fun text =>
          match text with
          | EmptyString => false
          | String d text' => Ascii.eqb (fold_case c) (fold_case d) && like_match pat' text'
          end
  end.

(** [column LIKE '%query%']; a NULL column never matches. *)
Definition like_contains (query : string) (column : option string) : bool :=
  match column with
  | None => false
  | Some text => like_match ("%" ++ query ++ "%") text
  end.

(** [LIMIT n]: a negative bound means no bound. *)
Definition sql_limit {A} (n : Z) (l : list A) : list A :=
  if n <? 0 then l else take (Z.to_nat n) l.

(** [if limit: query += LIMIT] *)
Definition optional_limit {A} (limit : option Z) (l : list A) : list A :=
  match limit with
  | None => l
  | Some n => if n =? 0 then l else sql_limit n l
  end.

Definition Qlt_bool (a b : Q) : bool := negb (Qle_bool b a).

(** *** json.dumps of a list of strings (ensure_ascii) *)

Definition hex_digit (n : N) : ascii :=
  if (n <? 10)%N then ascii_of_N (48 + n) else ascii_of_N (87 + n).

Definition dquote : ascii := ascii_of_N 34.
Definition backslash : ascii := ascii_of_N 92.

Definition json_escape_char (c : ascii) : string :=
  let n := N_of_ascii c in
  if (n =? 34)%N then String backslash (String dquote EmptyString) else
  if (n =? 92)%N then String backslash (String backslash EmptyString) else
  if (n =? 10)%N then String backslash "n" else
  if (n =? 13)%N then String backslash "r" else
  if (n =? 9)%N then String backslash "t" else
  if (n =? 8)%N then String backslash "b" else
  if (n =? 12)%N then String backslash "f" else
  if ((n <? 32) || (127 <? n))%N then
    String backslash "u00" ++ String (hex_digit (n / 16)) (String (hex_digit (n mod 16)) EmptyString)
  else String c EmptyString.

Fixpoint json_escape (s : string) : string :=
  match s with
  | EmptyString => EmptyString
  | String c r => json_escape_char c ++ json_escape r
  end.

Definition json_string (s : string) : string :=
  String dquote (json_escape s) ++ String dquote EmptyString.

Fixpoint join (sep : string) (l : list string) : string :=
  match l with
  | [] => EmptyString
  | [x] => x
  | x :: rest => x ++ sep ++ join sep rest
  end.

Definition json_dumps (l : list string) : string :=
  "[" ++ join ", " (map json_string l) ++ "]".

(** [_row_to_dict]: rows already carry their JSON columns decoded. *)
Definition _row_to_dict {R} (row : R) : R := row.

(** The partial dicts passed to the [update_*] operations by the core's
    callers; an absent key is [None].  [updated_at] is always overwritten by
    the operation itself. *)
Record episodic_updates := {
  eu_retrieval_count : option Z;
  eu_importance_score : option Q;
  eu_tags : option (list string)
}.

Record procedural_updates := {
  pu_execution_count : option Z;
  pu_success_rate : option Q;
  pu_average_duration : option (option Q);
  pu_last_executed : option string
}.

(** [SET retrieval_count = retrieval_count + 1, last_accessed = ?] *)
Definition touch_row (accessed : string) (r : episodic_row) : episodic_row :=
  {| e_id := e_id r; e_timestamp := e_timestamp r; e_duration := e_duration r;
     e_event_description := e_event_description r; e_context := e_context r;
     e_participants := e_participants r; e_location := e_location r;
     e_sensory_data := e_sensory_data r; e_observations := e_observations r;
     e_importance_score := e_importance_score r;
     e_emotional_valence := e_emotional_valence r;
     e_tags := e_tags r; e_categories := e_categories r;
     e_associated_concepts := e_associated_concepts r;
     e_retrieval_count := e_retrieval_count r + 1;
     e_last_accessed := Some accessed;
     e_created_at := e_created_at r; e_updated_at := e_updated_at r |}.

Definition set_episodic_row (updates : episodic_updates) (updated_at : string)
    (r : episodic_row) : episodic_row :=
  {| e_id := e_id r; e_timestamp := e_timestamp r; e_duration := e_duration r;
     e_event_description := e_event_description r; e_context := e_context r;
     e_participants := e_participants r; e_location := e_location r;
     e_sensory_data := e_sensory_data r; e_observations := e_observations r;
     e_importance_score := default (e_importance_score r) (eu_importance_score updates);
     e_emotional_valence := e_emotional_valence r;
     e_tags := match eu_tags updates with Some l => Some l | None => e_tags r end;
     e_categories := e_categories r;
     e_associated_concepts := e_associated_concepts r;
     e_retrieval_count := default (e_retrieval_count r) (eu_retrieval_count updates);
     e_last_accessed := e_last_accessed r;
     e_created_at := e_created_at r; e_updated_at := updated_at |}.

Definition set_procedural_row (updates : procedural_updates) (updated_at : string)
    (r : procedural_row) : procedural_row :=
  {| p_id := p_id r; p_procedure_name := p_procedure_name r;
     p_description := p_description r; p_purpose := p_purpose r;
     p_steps := p_steps r; p_parameters := p_parameters r;
     p_success_rate := default (p_success_rate r) (pu_success_rate updates);
     p_execution_count := default (p_execution_count r) (pu_execution_count updates);
     p_average_duration := default (p_average_duration r) (pu_average_duration updates);
     p_prerequisites := p_prerequisites r; p_dependencies := p_dependencies r;
     p_tags := p_tags r; p_categories := p_categories r;
     p_last_executed :=
       match pu_last_executed updates with Some t => Some t | None => p_last_executed r end;
     p_created_at := p_created_at r; p_updated_at := updated_at |}.

(** Binding a Python value to a NOT NULL TEXT column.  A value that is
    neither a string nor [None] is reported as a binding error. *)
Definition bind_text (column : string) (v : pyval) : M string :=
  match v with
  | PyStr s => ret s
  | PyNone => raise (IntegrityError ("NOT NULL constraint failed: " ++ column))
  | _ => raise InterfaceError
  end.

(** Binding to a REAL column that the model keeps non-NULL. *)
Definition bind_real (v : pyval) : M Q :=
  match v with
  | PyNum q => ret q
  | _ => raise InterfaceError
  end.

(** [memory[key]] *)
Definition subscript {A} (key : string) (entry : option A) : M A :=
  match entry with
  | Some v => ret v
  | None => raise (KeyError key)
  end.

(** The partial dict passed to [update_semantic_memory] by the core. *)
Record semantic_updates := {
  su_confidence_score : option Q
}.

Definition set_semantic_row (updates : semantic_updates) (updated_at : string)
    (r : semantic_row) : semantic_row :=
  {| s_id := s_id r; s_concept_name := s_concept_name r;
     s_definition := s_definition r; s_properties := s_properties r;
     s_relationships := s_relationships r;
     s_confidence_score := default (s_confidence_score r) (su_confidence_score updates);
     s_source := s_source r; s_evidence := s_evidence r; s_tags := s_tags r;
     s_categories := s_categories r; s_linked_episodes := s_linked_episodes r;
     s_created_at := s_created_at r; s_updated_at := updated_at |}.

(** [try: c except Exception as e: print(...)] *)
Definition attempt {A} (c : M A) : M unit :=
  fun w => (Ok tt, snd (c w)).

(** The parsed export file, as far as [import_from_json] reads it; a record
    of the file carries no [id] once [memory.pop('id', None)] has run. *)
Record export_document := {
  doc_episodic : list episodic_dict;
  doc_semantic : list semantic_dict;
  doc_procedural : list procedural_dict
}.

Section Operations.
(** The k-th reading of [datetime.now().isoformat()]. *)
Variable wall_clock : nat -> string.

Definition now_isoformat : M string :=
    fun w => (Ok (wall_clock (clock_reads w)),
              {| db := db w; clock_reads := S (clock_reads w) |}).

(** **** Episodic *)

Definition add_episodic_memory (memory : episodic_dict) : M Z :=
    run now <~ now_isoformat in
    let created_at := default now (ed_created_at memory) in
    let updated_at := default now (ed_updated_at memory) in
    let retrieval_count := default 0 (ed_retrieval_count memory) in
    run event_description <~ subscript "event_description" (ed_event_description memory) in
    run timestamp <~
      bind_text "episodic_memory.timestamp" (default (PyStr now) (ed_timestamp memory)) in
    run event_description <~
      bind_text "episodic_memory.event_description" event_description in
    run importance_score <~ bind_real (default (PyNum 50) (ed_importance_score memory)) in
    run emotional_valence <~ bind_real (default (PyNum 0) (ed_emotional_valence memory)) in
    run d <~ get_db in
    let rowid := episodic_seq d + 1 in
    let row :=
      {| e_id := rowid; e_timestamp := timestamp; e_duration := ed_duration memory;
         e_event_description := event_description; e_context := ed_context memory;
         e_participants := ed_participants memory; e_location := ed_location memory;
         e_sensory_data := ed_sensory_data memory;
         e_observations := ed_observations memory;
         e_importance_score := importance_score;
         e_emotional_valence := emotional_valence;
         e_tags := ed_tags memory; e_categories := ed_categories memory;
         e_associated_concepts := ed_associated_concepts memory;
         e_retrieval_count := retrieval_count;
         e_last_accessed := ed_last_accessed memory;
         e_created_at := created_at; e_updated_at := updated_at |} in
    exec put_db (with_episodic (episodic_memory d ++ [row]) rowid d) in
    ret rowid.

Definition get_episodic_memory (memory_id : Z) : M (option episodic_row) :=
    run d <~ get_db in
    match find (fun r => e_id r =? memory_id) (episodic_memory d) with
    | Some row =>
        run accessed <~ now_isoformat in
        exec put_db (with_episodic
                     (map (fun r => if e_id r =? memory_id then touch_row accessed r else r)
                          (episodic_memory d))
                     (episodic_seq d) d) in
        ret (Some (_row_to_dict row))
    | None => ret None
    end.

Definition get_all_episodic_memories (limit : option Z) : M (list episodic_row) :=
    run d <~ get_db in
    ret (map _row_to_dict
           (optional_limit limit
              (stable_sort (fun y x => String.ltb (e_timestamp x) (e_timestamp y))
                 (episodic_memory d)))).

Definition update_episodic_memory (memory_id : Z) (updates : episodic_updates) : M bool :=
    run updated_at <~ now_isoformat in
    run d <~ get_db in
    exec put_db (with_episodic
                 (map (fun r => if e_id r =? memory_id
                                then set_episodic_row updates updated_at r else r)
                      (episodic_memory d))
                 (episodic_seq d) d) in
    ret (existsb (fun r => e_id r =? memory_id) (episodic_memory d)).

Definition delete_episodic_memory (memory_id : Z) : M bool :=
    run d <~ get_db in
    exec put_db (with_episodic
                 (filter (fun r => negb (e_id r =? memory_id)) (episodic_memory d))
                 (episodic_seq d) d) in
    ret (existsb (fun r => e_id r =? memory_id) (episodic_memory d)).

Definition search_episodic (query : string) (limit : Z) : M (list episodic_row) :=
    run d <~ get_db in
    let matching :=
      filter (fun r => like_contains query (Some (e_event_description r))
                       || like_contains query (e_context r)
                       || like_contains query (e_observations r))
             (episodic_memory d) in
    let ordered :=
      stable_sort
        (fun y x =>
           Qlt_bool (e_importance_score x) (e_importance_score y)
           || (Qeq_bool (e_importance_score x) (e_importance_score y)
               && String.ltb (e_timestamp x) (e_timestamp y)))
        matching in
    ret (map _row_to_dict (sql_limit limit ordered)).

Definition filter_episodic (start_date end_date : option string)
      (min_importance : option Q) (tags : option (list string)) : M (list episodic_row) :=
    run d <~ get_db in
    let keep (r : episodic_row) : bool :=
      match start_date with
      | Some start => if str_truthy start then String.leb start (e_timestamp r) else true
      | None => true
      end
      && match end_date with
         | Some stop => if str_truthy stop then String.leb (e_timestamp r) stop else true
         | None => true
         end
      && match min_importance with
         | Some lo => Qle_bool lo (e_importance_score r)
         | None => true
         end
      && match tags with
         | Some tags =>
             forallb (fun tag => like_contains tag (json_dumps <$> e_tags r)) tags
         | None => true
         end in
    ret (map _row_to_dict
           (stable_sort (fun y x => String.ltb (e_timestamp x) (e_timestamp y))
              (filter keep (episodic_memory d)))).

(** **** Semantic *)

Definition add_semantic_memory (memory : semantic_dict) : M Z :=
    run now <~ now_isoformat in
    let created_at := default now (sd_created_at memory) in
    let updated_at := default now (sd_updated_at memory) in
    run concept_name <~ subscript "concept_name" (sd_concept_name memory) in
    run definition <~ subscript "definition" (sd_definition memory) in
    run concept_name <~ bind_text "semantic_memory.concept_name" concept_name in
    run definition <~ bind_text "semantic_memory.definition" definition in
    run confidence_score <~ bind_real (default (PyNum (1 # 2)) (sd_confidence_score memory)) in
    run d <~ get_db in
    if existsb (fun r => String.eqb (s_concept_name r) concept_name) (semantic_memory d)
    then raise (IntegrityError "UNIQUE constraint failed: semantic_memory.concept_name")
    else
      let rowid := semantic_seq d + 1 in
      let row :=
        {| s_id := rowid; s_concept_name := concept_name; s_definition := definition;
           s_properties := sd_properties memory;
           s_relationships := sd_relationships memory;
           s_confidence_score := confidence_score;
           s_source := sd_source memory; s_evidence := sd_evidence memory;
           s_tags := sd_tags memory; s_categories := sd_categories memory;
           s_linked_episodes := sd_linked_episodes memory;
           s_created_at := created_at; s_updated_at := updated_at |} in
      exec put_db (with_semantic (semantic_memory d ++ [row]) rowid d) in
      ret rowid.

Definition get_all_semantic_memories (limit : option Z) : M (list semantic_row) :=
    run d <~ get_db in
    ret (map _row_to_dict
           (optional_limit limit
              (stable_sort (fun y x => String.ltb (s_concept_name y) (s_concept_name x))
                 (semantic_memory d)))).

Definition delete_semantic_memory (memory_id : Z) : M bool :=
    run d <~ get_db in
    exec put_db (with_semantic
                 (filter (fun r => negb (s_id r =? memory_id)) (semantic_memory d))
                 (semantic_seq d) d) in
    ret (existsb (fun r => s_id r =? memory_id) (semantic_memory d)).

(** **** Procedural *)

Definition bind_steps (v : pyval) : M (list string) :=
    match v with
    | PyList l => ret l
    | PyNone => raise (IntegrityError "NOT NULL constraint failed: procedural_memory.steps")
    | _ => raise InterfaceError
    end.

Definition add_procedural_memory (memory : procedural_dict) : M Z :=
    run now <~ now_isoformat in
    let created_at := default now (pd_created_at memory) in
    let updated_at := default now (pd_updated_at memory) in
    run procedure_name <~ subscript "procedure_name" (pd_procedure_name memory) in
    run description <~ subscript "description" (pd_description memory) in
    run steps <~ subscript "steps" (pd_steps memory) in
    run procedure_name <~ bind_text "procedural_memory.procedure_name" procedure_name in
    run description <~ bind_text "procedural_memory.description" description in
    run steps <~ bind_steps steps in
    run success_rate <~ bind_real (default (PyNum 0) (pd_success_rate memory)) in
    run d <~ get_db in
    if existsb (fun r => String.eqb (p_procedure_name r) procedure_name) (procedural_memory d)
    then raise (IntegrityError "UNIQUE constraint failed: procedural_memory.procedure_name")
    else
      let rowid := procedural_seq d + 1 in
      let row :=
        {| p_id := rowid; p_procedure_name := procedure_name;
           p_description := description; p_purpose := pd_purpose memory;
           p_steps := steps; p_parameters := pd_parameters memory;
           p_success_rate := success_rate;
           p_execution_count := default 0 (pd_execution_count memory);
           p_average_duration := pd_average_duration memory;
           p_prerequisites := pd_prerequisites memory;
           p_dependencies := pd_dependencies memory;
           p_tags := pd_tags memory; p_categories := pd_categories memory;
           p_last_executed := pd_last_executed memory;
           p_created_at := created_at; p_updated_at := updated_at |} in
      exec put_db (with_procedural (procedural_memory d ++ [row]) rowid d) in
      ret rowid.

Definition get_procedural_memory_by_name (name : string) : M (option procedural_row) :=
    run d <~ get_db in
    ret (_row_to_dict <$>
           find (fun r => String.eqb (p_procedure_name r) name) (procedural_memory d)).

Definition get_all_procedural_memories (limit : option Z) : M (list procedural_row) :=
    run d <~ get_db in
    ret (map _row_to_dict
           (optional_limit limit
              (stable_sort (fun y x => String.ltb (p_procedure_name y) (p_procedure_name x))
                 (procedural_memory d)))).

Definition update_procedural_memory (memory_id : Z) (updates : procedural_updates)
    : M bool :=
    run updated_at <~ now_isoformat in
    run d <~ get_db in
    exec put_db (with_procedural
                 (map (fun r => if p_id r =? memory_id
                                then set_procedural_row updates updated_at r else r)
                      (procedural_memory d))
                 (procedural_seq d) d) in
    ret (existsb (fun r => p_id r =? memory_id) (procedural_memory d)).

Definition delete_procedural_memory (memory_id : Z) : M bool :=
    run d <~ get_db in
    exec put_db (with_procedural
                 (filter (fun r => negb (p_id r =? memory_id)) (procedural_memory d))
                 (procedural_seq d) d) in
    ret (existsb (fun r => p_id r =? memory_id) (procedural_memory d)).

(** **** More semantic and procedural operations *)

Definition get_semantic_memory (memory_id : Z) : M (option semantic_row) :=
  run d <~ get_db in
  ret (_row_to_dict <$> find (fun r => s_id r =? memory_id) (semantic_memory d)).

Definition get_semantic_memory_by_concept (concept_name : string)
  : M (option semantic_row) :=
  run d <~ get_db in
  ret (_row_to_dict <$>
         find (fun r => String.eqb (s_concept_name r) concept_name) (semantic_memory d)).

Definition update_semantic_memory (memory_id : Z) (updates : semantic_updates) : M bool :=
  run updated_at <~ now_isoformat in
  run d <~ get_db in
  exec put_db (with_semantic
               (map (fun r => if s_id r =? memory_id
                              then set_semantic_row updates updated_at r else r)
                    (semantic_memory d))
               (semantic_seq d) d) in
  ret (existsb (fun r => s_id r =? memory_id) (semantic_memory d)).

Definition get_procedural_memory (memory_id : Z) : M (option procedural_row) :=
  run d <~ get_db in
  ret (_row_to_dict <$> find (fun r => p_id r =? memory_id) (procedural_memory d)).

Definition search_semantic (query : string) (limit : Z) : M (list semantic_row) :=
  run d <~ get_db in
  let matching :=
    filter (fun r => like_contains query (Some (s_concept_name r))
                     || like_contains query (Some (s_definition r)))
           (semantic_memory d) in
  let ordered :=
    stable_sort (fun y x => Qlt_bool (s_confidence_score x) (s_confidence_score y))
      matching in
  ret (map _row_to_dict (sql_limit limit ordered)).

Definition search_procedural (query : string) (limit : Z) : M (list procedural_row) :=
  run d <~ get_db in
  let matching :=
    filter (fun r => like_contains query (Some (p_procedure_name r))
                     || like_contains query (Some (p_description r)))
           (procedural_memory d) in
  let ordered :=
    stable_sort (fun y x => Qlt_bool (p_success_rate x) (p_success_rate y)) matching in
  ret (map _row_to_dict (sql_limit limit ordered)).

(** **** Import *)

(** [for memory in data.get(kind, []): try: add(memory) except ...] *)
Fixpoint import_each {D} (add : D -> M Z) (memories : list D) : M unit :=
  match memories with
  | [] => ret tt
  | memory :: rest => exec attempt (add memory) in import_each add rest
  end.

Definition import_from_json (data : export_document) : M unit :=
  exec import_each add_episodic_memory (doc_episodic data) in
  exec import_each add_semantic_memory (doc_semantic data) in
  import_each add_procedural_memory (doc_procedural data).

End Operations.

End MemoryDatabase.

Import MemoryDatabase.

(** ** Configuration

    The configuration is the JSON object of [memory_config.json]: top-level
    keys map to a scalar or to a section, itself a dict of scalars. *)

Module Config.

Inductive cval :=
| CBool (b : bool)
| CNum (q : Q)
| CStr (s : string).

Inductive centry :=
| CScalar (v : cval)
| CSection (m : gmap string cval).

Definition cval_truthy (v : cval) : bool :=
  match v with
  | CBool b => b
  | CNum q => negb (Qeq_bool q 0)
  | CStr s => str_truthy s
  end.

(** A config value in arithmetic or in a comparison with a float. *)
Definition cval_number (v : cval) : option Q :=
  match v with
  | CBool b => Some (if b then 1 else 0)%Q
  | CNum q => Some q
  | CStr _ => None
  end.

(** Outside a [try] block a string there is a [TypeError]. *)
Definition number_of (v : cval) : M Q :=
  match cval_number v with
  | Some q => ret q
  | None => raise TypeError
  end.

(** [config.get(key, {})], to be used as a dict *)
Definition section_or_empty (config : gmap string centry) (key : string)
  : M (gmap string cval) :=
  match config !! key with
  | None => ret ∅
  | Some (CSection m) => ret m
  | Some (CScalar _) => raise AttributeError
  end.

(** [config[key]], to be used as a dict *)
Definition section (config : gmap string centry) (key : string) : M (gmap string cval) :=
  match config !! key with
  | None => raise (KeyError key)
  | Some (CSection m) => ret m
  | Some (CScalar _) => raise AttributeError
  end.

(** [section.get(key, fallback)] *)
Definition get_or (m : gmap string cval) (key : string) (fallback : cval) : cval :=
  default fallback (m !! key).

(** The dict [load_config] returns when the file does not exist. *)
Definition default_decay : gmap string cval :=
  <["enabled" := CBool true]>
  (<["decay_rate" := CNum (1 # 10)]>
  {["half_life_days" := CNum 30]}).

Definition default_config : gmap string centry :=
  <["database_path" := CScalar (CStr "memory_database.db")]>
  (<["retrieval" := CSection {["default_limit" := CNum 50]}]>
  (<["consolidation" := CSection {["enabled" := CBool true]}]>
  (<["decay" := CSection default_decay]> ∅))).

(** [load_config]: the parsed file if it exists, the built-in dict if not. *)
Definition load_config (file : option (gmap string centry)) : gmap string centry :=
  match file with
  | Some parsed => parsed
  | None => default_config
  end.

End Config.

Import Config.

(** ** memory_retrieval.py *)

Module MemoryRetrieval.

(** A row of any of the three tables, as the dict the retrieval code sees. *)
Inductive memory :=
| Episodic (r : episodic_row)
| Semantic (r : semantic_row)
| Procedural (r : procedural_row).

(** [memory.get('id')] *)
Definition memory_id (m : memory) : Z :=
  match m with
  | Episodic r => e_id r
  | Semantic r => s_id r
  | Procedural r => p_id r
  end.

(** [memory.get(key, '')] for the three text keys the similarity search
    reads; a key of another kind of row is absent. *)
Definition get_event_description (m : memory) : string :=
  match m with Episodic r => e_event_description r | _ => EmptyString end.

Definition get_definition (m : memory) : string :=
  match m with Semantic r => s_definition r | _ => EmptyString end.

Definition get_description (m : memory) : string :=
  match m with Procedural r => p_description r | _ => EmptyString end.

(** A result dict: the row plus the score key added by the search. *)
Record scored := {
  sc_memory : memory;
  sc_score : Q
}.

(** [memory.get(key, '')] for the text keys of the context search.  A key
    of another kind of row is absent and reads as the default; a NULL column
    reads as [None]. *)
Definition get_context (m : memory) : option string :=
  match m with Episodic r => e_context r | _ => Some EmptyString end.

Definition get_observations (m : memory) : option string :=
  match m with Episodic r => e_observations r | _ => Some EmptyString end.

Definition get_concept_name (m : memory) : string :=
  match m with Semantic r => s_concept_name r | _ => EmptyString end.

Definition get_procedure_name (m : memory) : string :=
  match m with Procedural r => p_procedure_name r | _ => EmptyString end.

(** [memory.get('tags', []) or []] *)
Definition get_tags (m : memory) : list string :=
  match m with
  | Episodic r => default [] (e_tags r)
  | Semantic r => default [] (s_tags r)
  | Procedural r => default [] (p_tags r)
  end.

(** [' '.join(parts)]: a [None] among the parts is a [TypeError]. *)
Fixpoint join_words (parts : list (option string)) : M string :=
  match parts with
  | [] => ret EmptyString
  | None :: _ => raise TypeError
  | Some part :: rest =>
      run tail <~ join_words rest in
      match rest with
      | [] => ret part
      | _ => ret (part ++ " " ++ tail)
      end
  end.



(** The first search result that is not yet in the chain. *)
Definition first_unvisited (visited : gset Z) (results : list episodic_row)
  : option episodic_row :=
  find (fun r => bool_decide (e_id r ∉ visited)) results.

Section Retrieval.
Variable config : gmap string centry.
(** [(datetime.now() - datetime.fromisoformat(timestamp)).days], or [None]
      when the timestamp does not parse. *)
Variable days_ago : string -> option Z.
(** [math.exp] *)
Variable exp : Q -> Q.

(** [MemoryUtils.apply_temporal_decay].  The arguments come straight from
      the configuration; a [TypeError] or [ValueError] inside the [try] block
      gives back the importance unchanged. *)
Definition apply_temporal_decay (original_importance : Q) (timestamp : string)
      (decay_rate half_life_days : cval) : M Q :=
    match days_ago timestamp with
    | None => ret original_importance
    | Some d =>
        if d <? 0 then ret original_importance
        else
          match cval_number decay_rate, cval_number half_life_days with
          | Some rate, Some half_life =>
              if Qeq_bool half_life 0 then raise ZeroDivisionError
              else
                let decay_factor := exp (- rate * inject_Z d / half_life)%Q in
                let decayed_score := (original_importance * decay_factor)%Q in
                ret (Qmax 0 decayed_score)
          | _, _ => ret original_importance
          end
    end.

(** The body of the [for memory in all_memories] loop of
      [retrieve_similar]; [similarities] is built in visiting order. *)
Fixpoint similar_loop (text_of : memory -> string) (reference_memory : memory)
      (ref_text : string) (all_memories : list memory) : M (list scored) :=
    match all_memories with
    | [] => ret []
    | memory :: rest =>
        if memory_id memory =? memory_id reference_memory
        then similar_loop text_of reference_memory ref_text rest
        else
          let compare_text := text_of memory in
          let similarity := calculate_text_similarity ref_text compare_text in
          run retrieval <~ section_or_empty config "retrieval" in
          run threshold <~ number_of (get_or retrieval "similarity_threshold" (CNum (3 # 10))) in
          run similarities <~ similar_loop text_of reference_memory ref_text rest in
          if Qlt_bool threshold similarity
          then ret ({| sc_memory := memory; sc_score := similarity |} :: similarities)
          else ret similarities
    end.

Definition retrieve_similar (reference_memory : memory) (memory_type : string)
      (limit : Z) : M (list scored) :=
    run found <~
      (if String.eqb memory_type "episodic" then
         run all <~ get_all_episodic_memories None in
         run similarities <~ similar_loop get_event_description reference_memory
                       (get_event_description reference_memory) (map Episodic all) in
         ret (Some similarities)
       else if String.eqb memory_type "semantic" then
         run all <~ get_all_semantic_memories None in
         run similarities <~ similar_loop get_definition reference_memory
                       (get_definition reference_memory) (map Semantic all) in
         ret (Some similarities)
       else if String.eqb memory_type "procedural" then
         run all <~ get_all_procedural_memories None in
         run similarities <~ similar_loop get_description reference_memory
                       (get_description reference_memory) (map Procedural all) in
         ret (Some similarities)
       else ret None) in
    match found with
    | None => ret []
    | Some similarities =>
        ret (slice_to limit
               (stable_sort (fun y x => Qlt_bool (sc_score x) (sc_score y)) similarities))
    end.

(** The body of the loop of [retrieve_by_importance]. *)
Definition adjusted_importance (apply_decay : bool) (memory : episodic_row) : M Q :=
    let importance := e_importance_score memory in
    run decay <~ (if apply_decay then section_or_empty config "decay" else ret ∅) in
    if apply_decay && cval_truthy (get_or decay "enabled" (CBool true)) then
      run decay <~ section config "decay" in
      run importance <~ apply_temporal_decay importance (e_timestamp memory)
                     (get_or decay "decay_rate" (CNum (1 # 10)))
                     (get_or decay "half_life_days" (CNum 30)) in
      run importance_calculation <~ section config "importance_calculation" in
      run boost_factor <~
        number_of (get_or importance_calculation "retrieval_boost_factor" (CNum (5 # 100))) in
      let retrieval_boost :=
        calculate_retrieval_boost (e_retrieval_count memory) boost_factor in
      ret (importance + retrieval_boost)%Q
    else ret importance.

Fixpoint importance_loop (min_importance : Q) (apply_decay : bool)
      (memories : list episodic_row) : M (list scored) :=
    match memories with
    | [] => ret []
    | memory :: rest =>
        run importance <~ adjusted_importance apply_decay memory in
        run important_memories <~ importance_loop min_importance apply_decay rest in
        if Qle_bool min_importance importance
        then ret ({| sc_memory := Episodic memory; sc_score := importance |}
                  :: important_memories)
        else ret important_memories
    end.

Definition retrieve_by_importance (min_importance : Q) (apply_decay : bool) (limit : Z)
    : M (list scored) :=
    run memories <~ get_all_episodic_memories None in
    run important_memories <~ importance_loop min_importance apply_decay memories in
    ret (slice_to limit
           (stable_sort (fun y x => Qlt_bool (sc_score x) (sc_score y)) important_memories)).

(** **** Context search *)

Definition _calculate_context_score (memory : memory) (keywords : list string)
    (memory_type : string) : M Q :=
  run text <~
    (if String.eqb memory_type "episodic" then
       join_words [Some (get_event_description memory); get_context memory;
                   get_observations memory]
     else if String.eqb memory_type "semantic" then
       join_words [Some (get_concept_name memory); Some (get_definition memory)]
     else
       join_words [Some (get_procedure_name memory); Some (get_description memory)]) in
  let text := lower text in
  let matches :=
    length (filter (fun keyword => is_substring (lower keyword) text) keywords) in
  let base_score :=
    match keywords with
    | [] => 0%Q
    | _ => (inject_Z (Z.of_nat matches) / inject_Z (Z.of_nat (length keywords)))%Q
    end in
  let weight :=
    if String.eqb memory_type "episodic" then
      match memory with Episodic r => (e_importance_score r / 100)%Q | _ => (50 / 100)%Q end
    else if String.eqb memory_type "semantic" then
      match memory with Semantic r => s_confidence_score r | _ => (1 # 2)%Q end
    else
      match memory with Procedural r => (p_success_rate r / 100)%Q | _ => (0 / 100)%Q end in
  ret (base_score * weight)%Q.

Fixpoint context_loop (keywords : list string) (memory_type : string)
    (all_memories : list memory) : M (list scored) :=
  match all_memories with
  | [] => ret []
  | memory :: rest =>
      run score <~ _calculate_context_score memory keywords memory_type in
      run scored_memories <~ context_loop keywords memory_type rest in
      if Qlt_bool 0 score
      then ret ({| sc_memory := memory; sc_score := score |} :: scored_memories)
      else ret scored_memories
  end.

Definition retrieve_by_context (context_keywords : list string) (memory_type : string)
    (limit : Z) : M (list scored) :=
  run all_memories <~
    (if String.eqb memory_type "episodic" then
       run all <~ get_all_episodic_memories None in ret (map Episodic all)
     else if String.eqb memory_type "semantic" then
       run all <~ get_all_semantic_memories None in ret (map Semantic all)
     else if String.eqb memory_type "procedural" then
       run all <~ get_all_procedural_memories None in ret (map Procedural all)
     else ret []) in
  run scored_memories <~ context_loop context_keywords memory_type all_memories in
  ret (slice_to limit
         (stable_sort (fun y x => Qlt_bool (sc_score x) (sc_score y)) scored_memories)).

(** **** Associative chain *)

(** [for term in search_terms[:3]: ...] *)
Fixpoint next_in_chain (visited : gset Z) (terms : list string)
  : M (option episodic_row) :=
  match terms with
  | [] => ret None
  | term :: rest =>
      run results <~ search_episodic term 5 in
      match first_unvisited visited results with
      | Some result => ret (Some result)
      | None => next_in_chain visited rest
      end
  end.

(** [for _ in range(max_depth): ...] *)
Fixpoint chain_loop (depth : nat) (current_memory : episodic_row) (visited_ids : gset Z)
    (chain : list episodic_row) : M (list episodic_row) :=
  match depth with
  | O => ret chain
  | S depth =>
      let associated := default [] (e_associated_concepts current_memory) in
      let tags := default [] (e_tags current_memory) in
      let search_terms := (associated ++ tags)%list in
      match search_terms with
      | [] => ret chain
      | _ =>
          run next_memory <~ next_in_chain visited_ids (take 3 search_terms) in
          match next_memory with
          | None => ret chain
          | Some next_memory =>
              chain_loop depth next_memory (visited_ids ∪ {[e_id next_memory]})
                (chain ++ [next_memory])%list
          end
      end
  end.

Definition retrieve_associative_chain (start_memory : episodic_row) (max_depth : Z)
  : M (list episodic_row) :=
  chain_loop (Z.to_nat max_depth) start_memory {[e_id start_memory]} [start_memory].

(** **** Tag search *)


End Retrieval.

End MemoryRetrieval.

Import MemoryRetrieval.

(** ** long_term_memory.py *)

Module LongTermMemory.

(** One entry of [stats['candidates']]. *)
Record candidate := {
  id1 : Z;
  id2 : Z;
  similarity : Q;
  desc1 : string;
  desc2 : string
}.

(** The [stats] dict of [consolidate_memories] together with the loop's
    [merged_ids] set. *)
Record consolidation := {
  merged : Z;
  archived : Z;
  candidates : list candidate;
  merged_ids : gset Z
}.

(** Python's two-argument [max]: the first argument unless the second is
    strictly greater. *)
Definition py_max (a b : Q) : Q := if Qlt_bool a b then b else a.

(** [text[:50]] *)
Definition first_50 (text : string) : string := substring 0 50 text.

(** [stats['candidates'].append({...})] *)
Definition record_candidate (episode1 episode2 : episodic_row) (similarity : Q)
    (stats : consolidation) : consolidation :=
  {| merged := merged stats; archived := archived stats;
     candidates :=
       candidates stats
       ++ [ {| id1 := e_id episode1; id2 := e_id episode2; similarity := similarity;
               desc1 := first_50 (e_event_description episode1);
               desc2 := first_50 (e_event_description episode2) |} ];
     merged_ids := merged_ids stats |}.

(** [merged_ids.add(episode2['id']); stats['merged'] += 1] *)
Definition record_merge (episode2 : episodic_row) (stats : consolidation) : consolidation :=
  {| merged := merged stats + 1; archived := archived stats;
     candidates := candidates stats;
     merged_ids := merged_ids stats ∪ {[e_id episode2]} |}.

Section Facade.
Variable wall_clock : nat -> string.
Variable fromisoformat_ok : string -> bool.
Variable config : gmap string centry.
Variable days_ago : string -> option Z.
Variable exp : Q -> Q.

(** **** Episodic *)

Definition store_episode (event_description : string) (kwargs : episodic_dict) : M Z :=
    run now <~ now_isoformat wall_clock in
    let memory :=
      {| ed_event_description := Some (PyStr event_description);
         ed_timestamp := Some (default (PyStr now) (ed_timestamp kwargs));
         ed_importance_score := ed_importance_score kwargs;
         ed_emotional_valence := ed_emotional_valence kwargs;
         ed_duration := ed_duration kwargs; ed_context := ed_context kwargs;
         ed_participants := ed_participants kwargs; ed_location := ed_location kwargs;
         ed_sensory_data := ed_sensory_data kwargs;
         ed_observations := ed_observations kwargs;
         ed_tags := ed_tags kwargs; ed_categories := ed_categories kwargs;
         ed_associated_concepts := ed_associated_concepts kwargs;
         ed_retrieval_count := ed_retrieval_count kwargs;
         ed_last_accessed := ed_last_accessed kwargs;
         ed_created_at := ed_created_at kwargs;
         ed_updated_at := ed_updated_at kwargs |} in
    match validate_episodic_memory fromisoformat_ok memory with
    | (false, error) =>
        raise (ValueError ("Invalid episodic memory: " ++ default "None" error))
    | (true, _) =>
        let tags :=
          match ed_tags memory with
          | None | Some [] => extract_keywords event_description 5
          | Some tags => tags
          end in
        add_episodic_memory wall_clock
          {| ed_event_description := ed_event_description memory;
             ed_timestamp := ed_timestamp memory;
             ed_importance_score := ed_importance_score memory;
             ed_emotional_valence := ed_emotional_valence memory;
             ed_duration := ed_duration memory; ed_context := ed_context memory;
             ed_participants := ed_participants memory;
             ed_location := ed_location memory;
             ed_sensory_data := ed_sensory_data memory;
             ed_observations := ed_observations memory;
             ed_tags := Some tags; ed_categories := ed_categories memory;
             ed_associated_concepts := ed_associated_concepts memory;
             ed_retrieval_count := ed_retrieval_count memory;
             ed_last_accessed := ed_last_accessed memory;
             ed_created_at := ed_created_at memory;
             ed_updated_at := ed_updated_at memory |}
    end.

Definition recall_episode (memory_id : Z) : M (option episodic_row) :=
    get_episodic_memory wall_clock memory_id.


Definition get_important_episodes (min_importance : Q) (limit : Z) : M (list scored) :=
    retrieve_by_importance config days_ago exp min_importance true limit.

(** **** Semantic *)

Definition store_concept (concept_name definition : string) (kwargs : semantic_dict)
    : M Z :=
    let memory :=
      {| sd_concept_name := Some (PyStr concept_name);
         sd_definition := Some (PyStr definition);
         sd_confidence_score := sd_confidence_score kwargs;
         sd_properties := sd_properties kwargs;
         sd_relationships := sd_relationships kwargs;
         sd_source := sd_source kwargs; sd_evidence := sd_evidence kwargs;
         sd_tags := sd_tags kwargs; sd_categories := sd_categories kwargs;
         sd_linked_episodes := sd_linked_episodes kwargs;
         sd_created_at := sd_created_at kwargs;
         sd_updated_at := sd_updated_at kwargs |} in
    match validate_semantic_memory memory with
    | (false, error) =>
        raise (ValueError ("Invalid semantic memory: " ++ default "None" error))
    | (true, _) =>
        let tags :=
          match sd_tags memory with
          | None | Some [] => extract_keywords definition 5
          | Some tags => tags
          end in
        add_semantic_memory wall_clock
          {| sd_concept_name := sd_concept_name memory;
             sd_definition := sd_definition memory;
             sd_confidence_score := sd_confidence_score memory;
             sd_properties := sd_properties memory;
             sd_relationships := sd_relationships memory;
             sd_source := sd_source memory; sd_evidence := sd_evidence memory;
             sd_tags := Some tags; sd_categories := sd_categories memory;
             sd_linked_episodes := sd_linked_episodes memory;
             sd_created_at := sd_created_at memory;
             sd_updated_at := sd_updated_at memory |}
    end.

(** **** Procedural *)

Definition store_procedure (procedure_name description : string) (steps : pyval)
      (kwargs : procedural_dict) : M Z :=
    let memory :=
      {| pd_procedure_name := Some (PyStr procedure_name);
         pd_description := Some (PyStr description);
         pd_steps := Some steps;
         pd_success_rate := pd_success_rate kwargs;
         pd_purpose := pd_purpose kwargs; pd_parameters := pd_parameters kwargs;
         pd_execution_count := pd_execution_count kwargs;
         pd_average_duration := pd_average_duration kwargs;
         pd_prerequisites := pd_prerequisites kwargs;
         pd_dependencies := pd_dependencies kwargs;
         pd_tags := pd_tags kwargs; pd_categories := pd_categories kwargs;
         pd_last_executed := pd_last_executed kwargs;
         pd_created_at := pd_created_at kwargs;
         pd_updated_at := pd_updated_at kwargs |} in
    match validate_procedural_memory memory with
    | (false, error) =>
        raise (ValueError ("Invalid procedural memory: " ++ default "None" error))
    | (true, _) =>
        let tags :=
          match pd_tags memory with
          | None | Some [] => extract_keywords description 5
          | Some tags => tags
          end in
        add_procedural_memory wall_clock
          {| pd_procedure_name := pd_procedure_name memory;
             pd_description := pd_description memory;
             pd_steps := pd_steps memory;
             pd_success_rate := pd_success_rate memory;
             pd_purpose := pd_purpose memory; pd_parameters := pd_parameters memory;
             pd_execution_count := pd_execution_count memory;
             pd_average_duration := pd_average_duration memory;
             pd_prerequisites := pd_prerequisites memory;
             pd_dependencies := pd_dependencies memory;
             pd_tags := Some tags; pd_categories := pd_categories memory;
             pd_last_executed := pd_last_executed memory;
             pd_created_at := pd_created_at memory;
             pd_updated_at := pd_updated_at memory |}
    end.

Definition recall_procedure (procedure_name : string) : M (option procedural_row) :=
    get_procedural_memory_by_name procedure_name.

Definition execute_procedure (procedure_name : string) (success : bool)
      (duration : option Q) : M unit :=
    run procedure <~ recall_procedure procedure_name in
    match procedure with
    | None => ret tt
    | Some procedure =>
        let exec_count := p_execution_count procedure + 1 in
        let old_success_rate := p_success_rate procedure in
        if exec_count =? 0 then raise ZeroDivisionError
        else
          let new_success_rate :=
            ((old_success_rate * inject_Z (exec_count - 1)
              + (if success then 100 else 0)) / inject_Z exec_count)%Q in
          let new_avg :=
            match duration with
            | Some duration =>
                let old_avg := default 0%Q (p_average_duration procedure) in
                Some ((old_avg * inject_Z (exec_count - 1) + duration)
                      / inject_Z exec_count)%Q
            | None => p_average_duration procedure
            end in
          run last_executed <~ now_isoformat wall_clock in
          let updates :=
            {| pu_execution_count := Some exec_count;
               pu_success_rate := Some new_success_rate;
               pu_average_duration := Some new_avg;
               pu_last_executed := Some last_executed |} in
          exec update_procedural_memory wall_clock (p_id procedure) updates in
          ret tt
    end.

(** **** Advanced retrieval *)


(** **** Consolidation *)

Definition _merge_episodes (keep_id merge_id : Z) : M unit :=
    run keep <~ get_episodic_memory wall_clock keep_id in
    run merge <~ get_episodic_memory wall_clock merge_id in
    match keep, merge with
    | Some keep, Some merge =>
        let updates :=
          {| eu_retrieval_count := Some (e_retrieval_count keep + e_retrieval_count merge);
             eu_importance_score :=
               Some (py_max (e_importance_score keep) (e_importance_score merge));
             eu_tags := Some (merge_tags [e_tags keep; e_tags merge]) |} in
        exec update_episodic_memory wall_clock keep_id updates in
        exec delete_episodic_memory merge_id in
        ret tt
    | _, _ => ret tt
    end.

(** The inner loop [for episode2 in all_episodes[i+1:]]. *)
Fixpoint merge_later (threshold : cval) (dry_run : bool) (episode1 : episodic_row)
    (later : list episodic_row) (stats : consolidation) : M consolidation :=
  match later with
  | [] => ret stats
  | episode2 :: rest =>
      if bool_decide (e_id episode2 ∈ merged_ids stats)
      then merge_later threshold dry_run episode1 rest stats
      else
        let similarity :=
          calculate_text_similarity (e_event_description episode1)
                                    (e_event_description episode2) in
        run threshold_value <~ number_of threshold in
        if Qle_bool threshold_value similarity then
          let stats := record_candidate episode1 episode2 similarity stats in
          if negb dry_run then
            exec _merge_episodes (e_id episode1) (e_id episode2) in
            merge_later threshold dry_run episode1 rest (record_merge episode2 stats)
          else merge_later threshold dry_run episode1 rest stats
        else merge_later threshold dry_run episode1 rest stats
  end.

(** The outer loop [for i, episode1 in enumerate(all_episodes)]. *)
Fixpoint merge_all (threshold : cval) (dry_run : bool)
      (all_episodes : list episodic_row) (stats : consolidation) : M consolidation :=
    match all_episodes with
    | [] => ret stats
    | episode1 :: later =>
        if bool_decide (e_id episode1 ∈ merged_ids stats)
        then merge_all threshold dry_run later stats
        else
          run stats <~ merge_later threshold dry_run episode1 later stats in
          merge_all threshold dry_run later stats
    end.

Definition consolidate_memories (dry_run : bool) : M consolidation :=
    let stats := {| merged := 0; archived := 0; candidates := []; merged_ids := ∅ |} in
    run consolidation <~ section_or_empty config "consolidation" in
    if negb (cval_truthy (get_or consolidation "enabled" (CBool true))) then ret stats
    else
      run consolidation <~ section config "consolidation" in
      let threshold := get_or consolidation "merge_similarity_threshold" (CNum (85 # 100)) in
      run all_episodes <~ get_all_episodic_memories None in
      merge_all threshold dry_run all_episodes stats.

(** **** Management *)

Definition delete_memory (memory_id : Z) (memory_type : string) : M bool :=
    if String.eqb memory_type "episodic" then delete_episodic_memory memory_id
    else if String.eqb memory_type "semantic" then delete_semantic_memory memory_id
    else if String.eqb memory_type "procedural" then delete_procedural_memory memory_id
    else ret false.

(** **** The remaining facade operations *)

Definition recall_concept (concept_name : string) : M (option semantic_row) :=
  get_semantic_memory_by_concept concept_name.


Definition update_concept_confidence (concept_name : string) (new_confidence : Q)
  : M unit :=
  run concept <~ recall_concept concept_name in
  match concept with
  | Some concept =>
      exec update_semantic_memory wall_clock (s_id concept)
             {| su_confidence_score := Some new_confidence |} in
      ret tt
  | None => ret tt
  end.


Definition retrieve_by_context (keywords : list string) (memory_type : string)
  : M (list scored) :=
  MemoryRetrieval.retrieve_by_context keywords memory_type 10.

Definition get_memory_chain (start_memory_id : Z) (max_depth : Z)
  : M (list episodic_row) :=
  run start_memory <~ recall_episode start_memory_id in
  match start_memory with
  | None => ret []
  | Some start_memory => retrieve_associative_chain start_memory max_depth
  end.


Definition import_memories (data : export_document) : M unit :=
  import_from_json wall_clock data.

End Facade.

End LongTermMemory.

Import LongTermMemory.

(** ** Sample data and specification-side definitions *)

Module Sample.

(** A clock that stands still. *)
Definition clock (k : nat) : string := "2025-06-01T12:00:00".

(** For the samples every timestamp is taken to parse, to be zero days old,
    and [exp] is the constant one. *)
Definition parses (s : string) : bool := true.
Definition age (s : string) : option Z := Some 0.
Definition exp_one (q : Q) : Q := 1%Q.

Definition episode (id : Z) (timestamp description : string) (importance : Q)
    (count : Z) (tags : list string) : episodic_row :=
  {| e_id := id; e_timestamp := timestamp; e_duration := None;
     e_event_description := description; e_context := None;
     e_participants := None; e_location := None; e_sensory_data := None;
     e_observations := None; e_importance_score := importance;
     e_emotional_valence := 0; e_tags := Some tags; e_categories := None;
     e_associated_concepts := None; e_retrieval_count := count;
     e_last_accessed := None; e_created_at := timestamp;
     e_updated_at := timestamp |}.

Definition world_of (rows : list episodic_row) : world :=
  {| db := with_episodic rows (Z.of_nat (length rows)) empty_database;
     clock_reads := 0 |}.

Definition empty_world : world := world_of [].

Definition no_episodic_kwargs : episodic_dict :=
  {| ed_event_description := None; ed_timestamp := None;
     ed_importance_score := None; ed_emotional_valence := None;
     ed_duration := None; ed_context := None; ed_participants := None;
     ed_location := None; ed_sensory_data := None; ed_observations := None;
     ed_tags := None; ed_categories := None; ed_associated_concepts := None;
     ed_retrieval_count := None; ed_last_accessed := None;
     ed_created_at := None; ed_updated_at := None |}.

Definition no_semantic_kwargs : semantic_dict :=
  {| sd_concept_name := None; sd_definition := None; sd_confidence_score := None;
     sd_properties := None; sd_relationships := None; sd_source := None;
     sd_evidence := None; sd_tags := None; sd_categories := None;
     sd_linked_episodes := None; sd_created_at := None; sd_updated_at := None |}.

Definition no_procedural_kwargs : procedural_dict :=
  {| pd_procedure_name := None; pd_description := None; pd_steps := None;
     pd_success_rate := None; pd_purpose := None; pd_parameters := None;
     pd_execution_count := None; pd_average_duration := None;
     pd_prerequisites := None; pd_dependencies := None; pd_tags := None;
     pd_categories := None; pd_last_executed := None; pd_created_at := None;
     pd_updated_at := None |}.

(** Two episodes whose descriptions differ as strings but not as token
    sets. *)
Definition greeting_world : world :=
  world_of [ episode 1 "2025-01-01T00:00:00" "Hello World" 40 0 [];
             episode 2 "2025-01-02T00:00:00" "hello, world!" 80 0 [] ].




(** A reference episode and one that shares 3 of the 10 tokens of the two
    descriptions, so that their similarity is exactly 0.3; a third shares 4
    of 8. *)
Definition letters_world : world :=
  world_of [ episode 1 "2025-01-01T00:00:00" "a b c d e f g" 50 0 [];
             episode 2 "2025-01-02T00:00:00" "a b c h i j" 50 0 [];
             episode 3 "2025-01-03T00:00:00" "a b c d k" 50 0 [] ].

(** A configuration whose merge threshold is [threshold]. *)
Definition config_with_merge_threshold (threshold : Q) : gmap string centry :=
  <["consolidation" := CSection {["merge_similarity_threshold" := CNum threshold]}]>
    default_config.


Definition procedure (id : Z) (name : string) (rate : Q) (count : Z)
    (average : option Q) : procedural_row :=
  {| p_id := id; p_procedure_name := name; p_description := "a workflow";
     p_purpose := None; p_steps := ["a"]; p_parameters := None;
     p_success_rate := rate; p_execution_count := count;
     p_average_duration := average; p_prerequisites := None;
     p_dependencies := None; p_tags := None; p_categories := None;
     p_last_executed := None; p_created_at := "2025-01-01T00:00:00";
     p_updated_at := "2025-01-01T00:00:00" |}.


End Sample.

(** The row stored under an id, and under a procedure name. *)
Definition stored_episode (memory_id : Z) (w : world) : option episodic_row :=
  find (fun r => e_id r =? memory_id) (episodic_memory (db w)).

Definition stored_procedure (name : string) (w : world) : option procedural_row :=
  find (fun r => String.eqb (p_procedure_name r) name) (procedural_memory (db w)).

(** The episodic table in the order [get_all_episodic_memories] lists it. *)
Definition episodes_listed (w : world) : list episodic_row :=
  stable_sort (fun y x => String.ltb (e_timestamp x) (e_timestamp y))
    (episodic_memory (db w)).

(** [x] stands before [y] in the list. *)
Definition ordered_pair {A} (l : list A) (x y : A) : Prop :=
  exists i j : nat, (i < j)%nat /\ l !! i = Some x /\ l !! j = Some y.


(** [may_precede before x y]: the sort order does not force [y] in front
    of [x]. *)
Definition may_precede {A} (before : A -> A -> bool) (x y : A) : Prop :=
  before y x = false.

(** The test [similarity >= threshold] of the consolidation loop. *)
Definition within_threshold (thr : Q) (episode1 episode2 : episodic_row) : bool :=
  Qle_bool thr (calculate_text_similarity (e_event_description episode1)
                                          (e_event_description episode2)).

(** The [stats] after the pair has been recorded and merged. *)
Definition after_merge (episode1 episode2 : episodic_row) (stats : consolidation)
  : consolidation :=
  record_merge episode2
    (record_candidate episode1 episode2
       (calculate_text_similarity (e_event_description episode1)
                                  (e_event_description episode2)) stats).

Definition no_stats : consolidation :=
  {| merged := 0; archived := 0; candidates := []; merged_ids := ∅ |}.

(** A session of read calls against the episodic table. *)
Inductive read_call :=
| RecallById (memory_id : Z)
| ListAll (limit : option Z)
| SearchText (query : string) (limit : Z)
| FilterBy (start_date end_date : option string) (min_importance : option Q)
    (tags : option (list string)).

Definition perform (clock : nat -> string) (call : read_call) : M unit :=
  match call with
  | RecallById memory_id => exec recall_episode clock memory_id in ret tt
  | ListAll limit => exec get_all_episodic_memories limit in ret tt
  | SearchText query limit => exec search_episodic query limit in ret tt
  | FilterBy start_date end_date min_importance tags =>
      exec filter_episodic start_date end_date min_importance tags in ret tt
  end.

Fixpoint perform_all (clock : nat -> string) (calls : list read_call) : M unit :=
  match calls with
  | [] => ret tt
  | call :: rest => exec perform clock call in perform_all clock rest
  end.

(** How many of the calls are a recall of [memory_id]. *)
Fixpoint recalls_of (memory_id : Z) (calls : list read_call) : Z :=
  match calls with
  | [] => 0
  | RecallById i :: rest =>
      (if i =? memory_id then 1 else 0) + recalls_of memory_id rest
  | _ :: rest => recalls_of memory_id rest
  end.

(** What every run of the loops keeps true when the threshold is one: each
    recorded candidate is a pair of listed rows with the same, non-empty token
    set; [merged] counts the candidates; and a row that is gone is the second
    row of a candidate. *)
Definition merges_only_equal_token_sets (l : list episodic_row) (w0 : world)
    (st : consolidation) (w : world) : Prop :=
  merged st = Z.of_nat (length (candidates st))
  ∧ (∀ c, c ∈ candidates st →
       ∃ r1 r2, r1 ∈ l ∧ r2 ∈ l ∧ e_id r1 = id1 c ∧ e_id r2 = id2 c
                ∧ token_set (e_event_description r1) = token_set (e_event_description r2)
                ∧ token_set (e_event_description r1) ≠ ∅)
  ∧ (∀ j, stored_episode j w = None →
       stored_episode j w0 = None ∨ ∃ c, c ∈ candidates st ∧ id2 c = j).



(** The three kinds of memory and what the similarity search reads of
    each. *)
Inductive kind := KEpisodic | KSemantic | KProcedural.

Definition kind_name (k : kind) : string :=
  match k with
  | KEpisodic => "episodic"
  | KSemantic => "semantic"
  | KProcedural => "procedural"
  end.

Definition rows_of_kind (k : kind) (d : database) : list memory :=
  match k with
  | KEpisodic => map Episodic (episodic_memory d)
  | KSemantic => map Semantic (semantic_memory d)
  | KProcedural => map Procedural (procedural_memory d)
  end.

Definition text_of_kind (k : kind) : memory -> string :=
  match k with
  | KEpisodic => get_event_description
  | KSemantic => get_definition
  | KProcedural => get_description
  end.

Definition similarity_to (k : kind) (reference m : memory) : Q :=
  calculate_text_similarity (text_of_kind k reference) (text_of_kind k m).

Definition with_similarity (k : kind) (reference m : memory) : scored :=
  {| sc_memory := m; sc_score := similarity_to k reference m |}.

(** Another record than the reference, strictly more similar than [thr]. *)
Definition above_threshold (k : kind) (reference : memory) (thr : Q) (m : memory) : bool :=
  negb (memory_id m =? memory_id reference) && Qlt_bool thr (similarity_to k reference m).

(** The configured [retrieval.similarity_threshold], 0.3 when absent. *)
Definition configured_similarity_threshold (config : gmap string centry) : option Q :=
  match config !! "retrieval" with
  | None => Some (3 # 10)%Q
  | Some (CSection m) => cval_number (get_or m "similarity_threshold" (CNum (3 # 10)))
  | Some (CScalar _) => None
  end.

(** ** Further specification-side definitions *)

(** Every character of the string satisfies [P]. *)
Fixpoint all_chars (P : ascii -> bool) (s : string) : bool :=
  match s with
  | EmptyString => true
  | String c r => P c && all_chars P r
  end.

(** A token: a non-empty string of word characters. *)
Definition is_token (t : string) : Prop :=
  t <> EmptyString /\ all_chars is_word_char t = true.

(** The tokens that [extract_keywords] counts. *)
Definition keyword_tokens (text : string) : list string :=
  filter (fun t => negb (str_in t stop_words) && (2 <? String.length t)%nat)
    (_tokenize (lower text)).

(** How often [t] occurs among the tokens. *)
Definition occurrences (tokens : list string) (t : string) : nat :=
  count_occ string_dec tokens t.

(** The tags carried by a list of tag columns. *)
Definition carries_tag (tags_list : list (option (list string))) (t : string) : Prop :=
  exists tags, Some tags ∈ tags_list /\ t ∈ tags.

(** The count recorded for [t] in a frequency dict, 0 when absent. *)
Definition freq_count (freq : list (string * nat)) (t : string) : nat :=
  match find (fun entry => String.eqb (fst entry) t) freq with
  | Some entry => snd entry
  | None => 0%nat
  end.



(** A table whose ids are pairwise distinct and not above its counter. *)
Definition keyed {R} (id : R -> Z) (rows : list R) (seq : Z) : Prop :=
  NoDup (map id rows) /\ Forall (fun r => id r <= seq) rows.

(** Well-formed database: the three tables are keyed, and concept names
    and procedure names are unique. *)
Definition db_wf (d : database) : Prop :=
  keyed e_id (episodic_memory d) (episodic_seq d)
  /\ keyed s_id (semantic_memory d) (semantic_seq d)
  /\ keyed p_id (procedural_memory d) (procedural_seq d)
  /\ NoDup (map s_concept_name (semantic_memory d))
  /\ NoDup (map p_procedure_name (procedural_memory d)).

(** The computation keeps the property of the database, whether it returns
    or raises. *)
Definition keeps (P : database -> Prop) {A} (c : M A) : Prop :=
  forall w r w', c w = (r, w') -> P (db w) -> P (db w').

(** The computation leaves the database as it found it, whether it returns
    or raises (the clock may have been read). *)
Definition leaves_database {A} (c : M A) : Prop :=
  forall w, db (snd (c w)) = db w.

(** [SELECT * FROM semantic_memory WHERE concept_name = ?] on a world. *)
Definition stored_concept (name : string) (w : world) : option semantic_row :=
  find (fun r => String.eqb (s_concept_name r) name) (semantic_memory (db w)).

(** The tags a facade insert stores: the caller's, or keywords of the text
    when the caller gave none. *)
Definition tags_or_keywords (tags : option (list string)) (text : string) : list string :=
  match tags with
  | None | Some [] => extract_keywords text 5
  | Some tags => tags
  end.



(** * Properties *)

(** ** The utilities on small inputs *)

Example tokenize_ex :
  _tokenize (lower "Hello, World_1 again!") = ["hello"; "world_1"; "again"].
Proof. reflexivity. Qed.

Example similarity_ex :
  calculate_text_similarity "a b c" "b c d" = (2 # 4)%Q.
Proof. vm_compute. reflexivity. Qed.

Example merge_tags_ex :
  merge_tags [Some ["b"; "a"]; None; Some ["c"; "a"]] = ["a"; "b"; "c"].
Proof. vm_compute. reflexivity. Qed.

Example extract_keywords_ex :
  extract_keywords "The user clicked login; the user waited for login, login" 5
  = ["login"; "user"; "clicked"; "waited"].
Proof. vm_compute. reflexivity. Qed.

Example like_ex :
  like_contains "LOG_N" (Some "user clicked login") = true
  /\ like_contains "logout" (Some "user clicked login") = false
  /\ like_contains "x" None = false.
Proof. repeat split; reflexivity. Qed.

Example json_dumps_ex :
  json_dumps ["a"; "b c"] = String "[" (String dquote ("a" ++ String dquote
     (", " ++ String dquote ("b c" ++ String dquote "]")))).
Proof. reflexivity. Qed.

(** ** Jaccard similarity *)

Lemma inject_nat_div_self (n : nat) :
  n ≠ 0%nat → (inject_Z (Z.of_nat n) / inject_Z (Z.of_nat n) == 1)%Q.
Proof.
  intros Hn. apply Qmult_inv_r.
  unfold Qeq. simpl. lia.
Qed.

Lemma tokens_inter_comm (X Y : gset string) : X ∩ Y = Y ∩ X.
Proof. set_solver. Qed.

Lemma tokens_union_comm (X Y : gset string) : X ∪ Y = Y ∪ X.
Proof. set_solver. Qed.

Lemma tokens_inter_idemp (X : gset string) : X ∩ X = X.
Proof. set_solver. Qed.

Lemma tokens_union_idemp (X : gset string) : X ∪ X = X.
Proof. set_solver. Qed.

Lemma token_set_nonempty_truthy (a : string) :
  token_set a ≠ ∅ → str_truthy a = true.
Proof. destruct a; [intros H; exfalso; by apply H | done]. Qed.

Lemma similarity_symmetric (a b : string) :
  calculate_text_similarity a b = calculate_text_similarity b a.
Proof.
  unfold calculate_text_similarity.
  rewrite (orb_comm (negb (str_truthy a))).
  destruct (negb (str_truthy b) || negb (str_truthy a)); [done|].
  cbv zeta.
  rewrite (orb_comm (bool_decide (token_set a = ∅))).
  by rewrite (tokens_inter_comm (token_set a)), (tokens_union_comm (token_set a)).
Qed.

Lemma similarity_self (a : string) :
  token_set a ≠ ∅ → (calculate_text_similarity a a == 1)%Q.
Proof.
  intros Hne. unfold calculate_text_similarity.
  rewrite (token_set_nonempty_truthy a Hne). simpl. cbv zeta.
  rewrite (bool_decide_eq_false_2 _ Hne). simpl.
  rewrite tokens_inter_idemp, tokens_union_idemp.
  rewrite (bool_decide_eq_false_2 _ Hne).
  apply inject_nat_div_self.
  intros Hsz. apply Hne. by apply size_empty_inv, leibniz_equiv in Hsz.
Qed.

(** C5 (as amended).  Jaccard similarity is symmetric, and a text that
    contains at least one word token has similarity one with itself. *)
Theorem similarity_symmetric_and_reflexive_on_tokens (a b : string) :
  calculate_text_similarity a b = calculate_text_similarity b a
  /\ (token_set a ≠ ∅ → (calculate_text_similarity a a == 1)%Q).
Proof. split; [apply similarity_symmetric | apply similarity_self]. Qed.

Lemma similarity_symmetric_and_reflexive_on_tokens_witness :
  calculate_text_similarity "alpha beta" "beta" = calculate_text_similarity "beta" "alpha beta"
  /\ (calculate_text_similarity "alpha beta" "alpha beta" == 1)%Q.
Proof.
  destruct (similarity_symmetric_and_reflexive_on_tokens "alpha beta" "beta") as [Hs Hr].
  split; [exact Hs | apply Hr; vm_compute; discriminate].
Defined.

(** C5 (as stated) fails: a non-empty text without word tokens has
    similarity zero with itself. *)
Lemma similarity_not_reflexive_on_nonempty :
  "?!" ≠ "" /\ ¬ (calculate_text_similarity "?!" "?!" == 1)%Q.
Proof. split; [discriminate | vm_compute; discriminate]. Qed.

(** ** Reasoning about computations *)

Ltac unfold_monad :=
  unfold subscript, bind_text, bind_real, bind_steps, number_of in *;
  unfold bind, ret, raise, get_db, put_db, now_isoformat in *.

Lemma add_episodic_memory_raise clock memory w e w' :
  add_episodic_memory clock memory w = (Raise e, w') → db w' = db w.
Proof.
  unfold add_episodic_memory. unfold_monad. simpl.
  intros H. repeat (case_match; simplify_eq/=); done.
Qed.

Lemma add_semantic_memory_raise clock memory w e w' :
  add_semantic_memory clock memory w = (Raise e, w') → db w' = db w.
Proof.
  unfold add_semantic_memory. unfold_monad. simpl.
  intros H. repeat (case_match; simplify_eq/=); done.
Qed.

Lemma add_procedural_memory_raise clock memory w e w' :
  add_procedural_memory clock memory w = (Raise e, w') → db w' = db w.
Proof.
  unfold add_procedural_memory. unfold_monad. simpl.
  intros H. repeat (case_match; simplify_eq/=); done.
Qed.

(** ** Validated inserts *)

(** C9.  When a facade insert path ends in the validation error, the
    database is what it was before the call. *)
Theorem rejected_insert_leaves_store_unchanged :
  (∀ clock parses event_description kwargs w msg w',
     store_episode clock parses event_description kwargs w = (Raise (ValueError msg), w') →
     db w' = db w)
  /\ (∀ clock concept_name definition kwargs w msg w',
        store_concept clock concept_name definition kwargs w = (Raise (ValueError msg), w') →
        db w' = db w)
  /\ (∀ clock procedure_name description steps kwargs w msg w',
        store_procedure clock procedure_name description steps kwargs w
        = (Raise (ValueError msg), w') →
        db w' = db w).
Proof.
  split; [|split].
  - intros clock parses event_description kwargs w msg w'.
    unfold store_episode, bind at 1. unfold now_isoformat at 1.
    destruct (validate_episodic_memory _ _) as [[] error].
    + intros H. by apply add_episodic_memory_raise in H.
    + unfold raise. by intros [= _ <-].
  - intros clock concept_name definition kwargs w msg w'.
    unfold store_concept.
    destruct (validate_semantic_memory _) as [[] error].
    + apply add_semantic_memory_raise.
    + unfold raise. by intros [= _ <-].
  - intros clock procedure_name description steps kwargs w msg w'.
    unfold store_procedure.
    destruct (validate_procedural_memory _) as [[] error].
    + apply add_procedural_memory_raise.
    + unfold raise. by intros [= _ <-].
Qed.

(** ** Deleting by kind *)

(** C10.  A [memory_type] other than the three kinds deletes nothing and
    answers [False]. *)
Theorem delete_memory_unknown_type (memory_id : Z) (memory_type : string) (w : world) :
  memory_type ≠ "episodic" → memory_type ≠ "semantic" → memory_type ≠ "procedural" →
  delete_memory memory_id memory_type w = (Ok false, w).
Proof.
  intros He Hs Hp. unfold delete_memory.
  apply String.eqb_neq in He, Hs, Hp. by rewrite He, Hs, Hp.
Qed.

Lemma delete_memory_unknown_type_witness :
  delete_memory 1 "working" (Sample.world_of [Sample.episode 1 "2025-01-01T00:00:00" "alpha" 50 0 []])
  = (Ok false, Sample.world_of [Sample.episode 1 "2025-01-01T00:00:00" "alpha" 50 0 []]).
Proof. apply delete_memory_unknown_type; discriminate. Defined.

Lemma rejected_insert_leaves_store_unchanged_witness :
  db (snd (store_episode Sample.clock Sample.parses "" Sample.no_episodic_kwargs
             Sample.empty_world)) = db Sample.empty_world
  /\ db (snd (store_concept Sample.clock "AI" "" Sample.no_semantic_kwargs
                Sample.empty_world)) = db Sample.empty_world
  /\ db (snd (store_procedure Sample.clock "deploy" "ship it" (PyList [])
                Sample.no_procedural_kwargs Sample.empty_world)) = db Sample.empty_world.
Proof.
  destruct rejected_insert_leaves_store_unchanged as (He & Hs & Hp).
  split; [|split].
  - eapply (He Sample.clock Sample.parses "" Sample.no_episodic_kwargs Sample.empty_world
              "Invalid episodic memory: Missing required field: event_description").
    reflexivity.
  - eapply (Hs Sample.clock "AI" "" Sample.no_semantic_kwargs Sample.empty_world
              "Invalid semantic memory: Missing required field: definition").
    reflexivity.
  - eapply (Hp Sample.clock "deploy" "ship it" (PyList []) Sample.no_procedural_kwargs
              Sample.empty_world
              "Invalid procedural memory: Missing required field: steps").
    reflexivity.
Defined.

(** ** The episodic read path *)

Lemma find_map_by_id (f : episodic_row → episodic_row) (i j : Z) (rows : list episodic_row) :
  (∀ r, e_id (f r) = e_id r) →
  find (λ r, e_id r =? j) (map (λ r, if e_id r =? i then f r else r) rows)
  = (λ r, if e_id r =? i then f r else r) <$> find (λ r, e_id r =? j) rows.
Proof.
  intros Hf. induction rows as [|r rows IH]; [done|].
  simpl. destruct (e_id r =? i) eqn:Hi.
  - rewrite Hf. destruct (e_id r =? j); [by simpl; rewrite Hi | done].
  - destruct (e_id r =? j); [by simpl; rewrite Hi | done].
Qed.

Lemma find_by_id_Some (j : Z) (rows : list episodic_row) (r : episodic_row) :
  find (λ r, e_id r =? j) rows = Some r → e_id r = j.
Proof.
  intros H. apply find_some in H as [_ H]. lia.
Qed.

(** What [get_episodic_memory] returns and what it leaves behind. *)
Lemma get_episodic_memory_effect clock i w :
  ∃ w', get_episodic_memory clock i w = (Ok (stored_episode i w), w')
        ∧ (∀ j, stored_episode j w'
                = if j =? i then touch_row (clock (clock_reads w)) <$> stored_episode j w
                  else stored_episode j w)
        ∧ semantic_memory (db w') = semantic_memory (db w)
        ∧ procedural_memory (db w') = procedural_memory (db w).
Proof.
  unfold get_episodic_memory, stored_episode. unfold_monad. simpl.
  destruct (find _ _) as [row|] eqn:Hrow.
  - eexists. split; [reflexivity|]. simpl. split; [|done].
    intros j. rewrite find_map_by_id by done.
    destruct (j =? i) eqn:Hj.
    + apply Z.eqb_eq in Hj as ->. rewrite Hrow. simpl.
      apply find_by_id_Some in Hrow. by rewrite (proj2 (Z.eqb_eq _ _) Hrow).
    + destruct (find (λ r, e_id r =? j) _) as [r|] eqn:Hr; [|done].
      simpl. apply find_by_id_Some in Hr. rewrite Hr, Hj. done.
  - exists w. split; [done|]. split; [|done].
    intros j. destruct (j =? i) eqn:Hj; [|done].
    apply Z.eqb_eq in Hj as ->. by rewrite Hrow.
Qed.

Lemma perform_effect clock call w :
  ∃ w', perform clock call w = (Ok tt, w')
        ∧ ∀ j, stored_episode j w'
               = match call with
                 | RecallById i =>
                     if j =? i then touch_row (clock (clock_reads w)) <$> stored_episode j w
                     else stored_episode j w
                 | _ => stored_episode j w
                 end.
Proof.
  destruct call as [i|limit|query limit|start_date end_date min_importance tags].
  - destruct (get_episodic_memory_effect clock i w) as (w' & Hget & Hst & _).
    exists w'. split; [|done].
    unfold perform, recall_episode, bind. by rewrite Hget.
  - by exists w.
  - by exists w.
  - by exists w.
Qed.

(** C3.  Over any session of recall, list, search and filter calls, the
    stored retrieval count of a record grows by exactly the number of
    recalls of its id; listing, searching and filtering leave it alone. *)
Theorem retrieval_count_counts_recalls clock (calls : list read_call) (w : world)
    (i : Z) (r : episodic_row) :
  stored_episode i w = Some r →
  ∃ w' r', perform_all clock calls w = (Ok tt, w')
           ∧ stored_episode i w' = Some r'
           ∧ e_retrieval_count r' = e_retrieval_count r + recalls_of i calls.
Proof.
  revert w r. induction calls as [|call calls IH]; intros w r Hr.
  - exists w, r. simpl. split; [done|]. split; [done|lia].
  - destruct (perform_effect clock call w) as (w1 & Hcall & Hst).
    specialize (Hst i). rewrite Hr in Hst.
    assert (∃ r1, stored_episode i w1 = Some r1
                  ∧ e_retrieval_count r1
                    = e_retrieval_count r
                      + match call with
                        | RecallById k => if k =? i then 1 else 0
                        | _ => 0
                        end) as (r1 & Hr1 & Hc1).
    { destruct call as [k| | |]; try (exists r; split; [done|lia]).
      rewrite (Z.eqb_sym k i). destruct (i =? k).
      - eexists. split; [exact Hst|]. simpl. lia.
      - exists r. split; [done|lia]. }
    destruct (IH w1 r1 Hr1) as (w' & r' & Hrun & Hr' & Hc').
    exists w', r'. split; [|split; [done|]].
    + simpl. unfold bind at 1. by rewrite Hcall.
    + rewrite Hc', Hc1. destruct call; simpl; lia.
Qed.

Lemma retrieval_count_counts_recalls_witness :
  ∃ w' r',
    perform_all Sample.clock
      [RecallById 1; ListAll None; SearchText "alpha" 10; RecallById 1;
       FilterBy None None (Some 10%Q) None; RecallById 2; RecallById 1]
      (Sample.world_of [Sample.episode 1 "2025-01-01T00:00:00" "alpha" 50 4 []])
    = (Ok tt, w')
    ∧ stored_episode 1 w' = Some r'
    ∧ e_retrieval_count r' = 4 + 3.
Proof.
  apply (retrieval_count_counts_recalls Sample.clock
           [RecallById 1; ListAll None; SearchText "alpha" 10; RecallById 1;
            FilterBy None None (Some 10%Q) None; RecallById 2; RecallById 1]
           (Sample.world_of [Sample.episode 1 "2025-01-01T00:00:00" "alpha" 50 4 []])
           1 (Sample.episode 1 "2025-01-01T00:00:00" "alpha" 50 4 [])).
  reflexivity.
Defined.

(** C6 (as amended).  A read by id returns the row as it was stored before
    the call; the count increment and the new [last_accessed] are written
    together and show in the store, hence in the next read. *)
Theorem read_by_id_returns_snapshot clock (i : Z) (w : world) (r : episodic_row) :
  stored_episode i w = Some r →
  ∃ w' r', get_episodic_memory clock i w = (Ok (Some r), w')
           ∧ stored_episode i w' = Some r'
           ∧ e_retrieval_count r' = e_retrieval_count r + 1
           ∧ e_last_accessed r' = Some (clock (clock_reads w)).
Proof.
  intros Hr.
  destruct (get_episodic_memory_effect clock i w) as (w' & Hget & Hst & _).
  exists w', (touch_row (clock (clock_reads w)) r).
  rewrite Hr in Hget. split; [done|].
  specialize (Hst i). rewrite Z.eqb_refl, Hr in Hst. done.
Qed.

Lemma read_by_id_returns_snapshot_witness :
  ∃ w' r',
    get_episodic_memory Sample.clock 1
      (Sample.world_of [Sample.episode 1 "2025-01-01T00:00:00" "alpha" 50 0 []])
    = (Ok (Some (Sample.episode 1 "2025-01-01T00:00:00" "alpha" 50 0 [])), w')
    ∧ stored_episode 1 w' = Some r'
    ∧ e_retrieval_count r' = 0 + 1
    ∧ e_last_accessed r' = Some (Sample.clock 0%nat).
Proof.
  apply (read_by_id_returns_snapshot Sample.clock 1
           (Sample.world_of [Sample.episode 1 "2025-01-01T00:00:00" "alpha" 50 0 []])).
  reflexivity.
Defined.

(** C6 (as stated) fails: the record handed to the caller carries both the
    pre-increment count and the old [last_accessed], although the store
    already holds the new values. *)
Lemma read_by_id_shows_stale_record :
  let w := Sample.world_of [Sample.episode 1 "2025-01-01T00:00:00" "alpha" 50 0 []] in
  ∃ returned w' now_stored,
    get_episodic_memory Sample.clock 1 w = (Ok (Some returned), w')
    ∧ stored_episode 1 w' = Some now_stored
    ∧ e_retrieval_count now_stored = 1
    ∧ e_last_accessed now_stored = Some "2025-06-01T12:00:00"
    ∧ e_retrieval_count returned = 0
    ∧ e_last_accessed returned = None.
Proof.
  simpl. eexists _, _, _. repeat split.
Qed.

(** ** Configuration defaults *)

Lemma default_config_decay : default_config !! "decay" = Some (CSection default_decay).
Proof. vm_compute. reflexivity. Qed.

Lemma default_config_importance_calculation :
  default_config !! "importance_calculation" = None.
Proof. vm_compute. reflexivity. Qed.

Lemma default_decay_values :
  get_or default_decay "enabled" (CBool true) = CBool true
  ∧ get_or default_decay "decay_rate" (CNum (1 # 10)) = CNum (1 # 10)
  ∧ get_or default_decay "half_life_days" (CNum 30) = CNum 30.
Proof. vm_compute. done. Qed.

Lemma apply_temporal_decay_default days_ago exp importance timestamp w :
  ∃ decayed,
    apply_temporal_decay days_ago exp importance timestamp (CNum (1 # 10)) (CNum 30) w
    = (Ok decayed, w).
Proof.
  unfold apply_temporal_decay.
  destruct (days_ago timestamp) as [d|]; [|by eexists].
  destruct (d <? 0); [by eexists|]. simpl. by eexists.
Qed.

Lemma stable_sort_nonempty {A} (before : A → A → bool) (l : list A) :
  l ≠ [] → stable_sort before l ≠ [].
Proof.
  destruct l as [|x l]; [done|]. intros _. simpl.
  destruct (stable_sort before l) as [|y ys]; simpl; [done|].
  by destruct (before y x).
Qed.

Lemma adjusted_importance_default days_ago exp memory w :
  adjusted_importance default_config days_ago exp true memory w
  = (Raise (KeyError "importance_calculation"), w).
Proof.
  unfold adjusted_importance, section_or_empty, section.
  rewrite default_config_decay, default_config_importance_calculation.
  unfold bind at 1. unfold ret at 1.
  destruct default_decay_values as (-> & _). simpl.
  unfold bind at 1. unfold ret at 1.
  destruct default_decay_values as (_ & -> & ->).
  unfold bind at 1.
  destruct (apply_temporal_decay_default days_ago exp (e_importance_score memory)
              (e_timestamp memory) w) as (decayed & ->).
  reflexivity.
Qed.

(** C2, on the code.  With the configuration that [load_config] builds when
    there is no file, which has no [importance_calculation] section, ranking
    by importance raises [KeyError] as soon as the store holds one episode. *)
Theorem default_config_breaks_importance_ranking days_ago exp
    (min_importance : Q) (limit : Z) (w : world) :
  episodic_memory (db w) ≠ [] →
  get_important_episodes (load_config None) days_ago exp min_importance limit w
  = (Raise (KeyError "importance_calculation"), w).
Proof.
  intros Hrows.
  unfold get_important_episodes, retrieve_by_importance, get_all_episodic_memories.
  unfold bind at 1. unfold bind at 1. unfold get_db, ret at 1.
  apply (stable_sort_nonempty (λ y x, String.ltb (e_timestamp x) (e_timestamp y))) in Hrows.
  unfold optional_limit, _row_to_dict. rewrite map_id. cbn [db load_config].
  destruct (stable_sort _ _) as [|memory rest]; [done|].
  cbn [importance_loop]. unfold bind at 1. unfold bind at 1.
  by rewrite adjusted_importance_default.
Qed.

Lemma default_config_breaks_importance_ranking_witness :
  get_important_episodes (load_config None) Sample.age Sample.exp_one 70 20
    (Sample.world_of [Sample.episode 1 "2025-01-01T00:00:00" "alpha" 90 0 []])
  = (Raise (KeyError "importance_calculation"),
     Sample.world_of [Sample.episode 1 "2025-01-01T00:00:00" "alpha" 90 0 []]).
Proof.
  apply default_config_breaks_importance_ranking. discriminate.
Defined.

(** ** Procedure statistics *)






(** ** Stable sorting *)

Section StableSortFacts.
Context {A : Type} (before : A → A → bool).

Lemma insert_sorted_Permutation (x : A) (l : list A) :
  insert_sorted before x l ≡ₚ x :: l.
Proof.
  induction l as [|y ys IH]; simpl; [done|].
  destruct (before y x); [|done].
  rewrite IH. apply Permutation_swap.
Qed.

Lemma stable_sort_Permutation (l : list A) : stable_sort before l ≡ₚ l.
Proof.
  induction l as [|x xs IH]; simpl; [done|].
  by rewrite insert_sorted_Permutation, IH.
Qed.

Lemma stable_sort_elem_of (x : A) (l : list A) : x ∈ stable_sort before l ↔ x ∈ l.
Proof. by rewrite stable_sort_Permutation. Qed.

Hypothesis before_asym : ∀ x y, before x y = true → before y x = false.

Lemma insert_sorted_HdRel (z x : A) (l : list A) :
  may_precede before z x → HdRel (may_precede before) z l → HdRel (may_precede before) z (insert_sorted before x l).
Proof.
  intros Hzx Hl. destruct l as [|y ys]; simpl; [by constructor|].
  destruct (before y x); constructor; [|done].
  by inversion Hl.
Qed.

Lemma insert_sorted_Sorted (x : A) (l : list A) :
  Sorted (may_precede before) l → Sorted (may_precede before) (insert_sorted before x l).
Proof.
  induction l as [|y ys IH]; intros Hl; simpl.
  - by repeat constructor.
  - destruct (before y x) eqn:Hyx.
    + inversion Hl as [|? ? Hys Hhd]; subst.
      constructor; [by apply IH|].
      apply insert_sorted_HdRel; [|done].
      by apply before_asym.
    + constructor; [done|]. by constructor.
Qed.

Lemma stable_sort_Sorted (l : list A) : Sorted (may_precede before) (stable_sort before l).
Proof.
  induction l as [|x xs IH]; simpl; [constructor|].
  by apply insert_sorted_Sorted.
Qed.

End StableSortFacts.

Lemma episodes_listed_elem_of (w : world) (r : episodic_row) :
  r ∈ episodes_listed w ↔ r ∈ episodic_memory (db w).
Proof. apply stable_sort_elem_of. Qed.


Lemma get_all_episodic_memories_listed (w : world) :
  get_all_episodic_memories None w = (Ok (episodes_listed w), w).
Proof.
  unfold get_all_episodic_memories, episodes_listed. unfold_monad.
  unfold optional_limit, _row_to_dict. by rewrite map_id.
Qed.

(** ** Effects of the episodic operations on the stored rows *)

Lemma find_filter_by_id (i j : Z) (rows : list episodic_row) :
  find (λ r, e_id r =? j) (filter (λ r, negb (e_id r =? i)) rows)
  = if j =? i then None else find (λ r, e_id r =? j) rows.
Proof.
  induction rows as [|r rows IH]; simpl.
  - by destruct (j =? i).
  - rewrite filter_cons.
    destruct (decide (negb (e_id r =? i))) as [Hkeep|Hdrop]; simpl; rewrite IH.
    + destruct (e_id r =? j) eqn:Hr; [|done].
      destruct (j =? i) eqn:Hj; [|done].
      destruct (e_id r =? i) eqn:Hi; [done|lia].
    + destruct (j =? i) eqn:Hj; [done|].
      destruct (e_id r =? j) eqn:Hr; [|done].
      destruct (e_id r =? i) eqn:Hi; [lia|]. by destruct Hdrop.
Qed.

Lemma update_episodic_memory_effect clock i updates w :
  ∃ found w', update_episodic_memory clock i updates w = (Ok found, w')
    ∧ ∀ j, stored_episode j w'
           = if j =? i
             then set_episodic_row updates (clock (clock_reads w)) <$> stored_episode j w
             else stored_episode j w.
Proof.
  unfold update_episodic_memory, stored_episode. unfold_monad. simpl.
  eexists _, _. split; [reflexivity|]. simpl.
  intros j. rewrite find_map_by_id by done.
  destruct (j =? i) eqn:Hj.
  - apply Z.eqb_eq in Hj as ->.
    destruct (find _ _) as [r|] eqn:Hr; [|done]. simpl.
    apply find_by_id_Some in Hr. by rewrite (proj2 (Z.eqb_eq _ _) Hr).
  - destruct (find (λ r, e_id r =? j) _) as [r|] eqn:Hr; [|done]. simpl.
    apply find_by_id_Some in Hr. by rewrite Hr, Hj.
Qed.

Lemma delete_episodic_memory_effect i w :
  ∃ found w', delete_episodic_memory i w = (Ok found, w')
    ∧ ∀ j, stored_episode j w' = if j =? i then None else stored_episode j w.
Proof.
  unfold delete_episodic_memory, stored_episode. unfold_monad. simpl.
  eexists _, _. split; [reflexivity|]. simpl.
  intros j. apply find_filter_by_id.
Qed.

(** What [_merge_episodes] does to the stored rows. *)
Lemma merge_episodes_effect clock k m w :
  ∃ w', _merge_episodes clock k m w = (Ok tt, w')
    ∧ (∀ j, j ≠ k → j ≠ m → stored_episode j w' = stored_episode j w)
    ∧ (∀ j, stored_episode j w' = None → j = m ∨ stored_episode j w = None)
    ∧ (∀ keep merge,
         k ≠ m → stored_episode k w = Some keep → stored_episode m w = Some merge →
         stored_episode m w' = None
         ∧ ∃ r, stored_episode k w' = Some r
                ∧ e_retrieval_count r = e_retrieval_count keep + e_retrieval_count merge
                ∧ e_importance_score r
                  = py_max (e_importance_score keep) (e_importance_score merge)
                ∧ e_tags r = Some (merge_tags [e_tags keep; e_tags merge])).
Proof.
  destruct (get_episodic_memory_effect clock k w) as (w1 & Hget1 & Hst1 & _).
  destruct (get_episodic_memory_effect clock m w1) as (w2 & Hget2 & Hst2 & _).
  unfold _merge_episodes. unfold bind at 1. rewrite Hget1.
  unfold bind at 1. rewrite Hget2.
  assert (Hkeep12 : ∀ j, stored_episode j w2 = None → stored_episode j w = None).
  { intros j. rewrite Hst2, Hst1.
    destruct (j =? m), (j =? k), (stored_episode j w); simpl; congruence. }
  destruct (stored_episode k w) as [keep|] eqn:Hk;
    [destruct (stored_episode m w1) as [merge|] eqn:Hm|].
  - match goal with
    | |- context [update_episodic_memory clock k ?u] =>
        destruct (update_episodic_memory_effect clock k u w2) as (f3 & w3 & Hupd & Hst3)
    end.
    destruct (delete_episodic_memory_effect m w3) as (f4 & w4 & Hdel & Hst4).
    exists w4. unfold bind at 1. rewrite Hupd. unfold bind at 1. rewrite Hdel.
    split; [done|]. split; [|split].
    + intros j Hjk Hjm. rewrite Hst4, Hst3, Hst2, Hst1.
      by rewrite !(proj2 (Z.eqb_neq _ _)) by done.
    + intros j. rewrite Hst4. destruct (j =? m) eqn:Hjm; [left; lia|].
      rewrite Hst3. intros Hnone. right. apply Hkeep12.
      destruct (j =? k); [|done]. by destruct (stored_episode j w2).
    + intros keep' merge' Hkm Hk' Hm'. simplify_eq.
      rewrite Hst1, (proj2 (Z.eqb_neq _ _)) in Hm by done.
      rewrite Hm' in Hm. simplify_eq.
      split; [by rewrite Hst4, Z.eqb_refl|].
      rewrite Hst4, (proj2 (Z.eqb_neq _ _)) by done.
      rewrite Hst3, Z.eqb_refl, Hst2, (proj2 (Z.eqb_neq _ _)) by done.
      rewrite Hst1, Z.eqb_refl, Hk. simpl. eexists. split; [reflexivity|]. done.
  - exists w2. split; [done|]. split; [|split].
    + intros j Hjk Hjm. rewrite Hst2, Hst1.
      by rewrite !(proj2 (Z.eqb_neq _ _)) by done.
    + intros j Hnone. right. by apply Hkeep12.
    + intros keep' merge' Hkm Hk' Hm'. simplify_eq.
      rewrite Hst1, (proj2 (Z.eqb_neq _ _)) in Hm by done. congruence.
  - exists w2. split; [done|]. split; [|split].
    + intros j Hjk Hjm. rewrite Hst2, Hst1.
      by rewrite !(proj2 (Z.eqb_neq _ _)) by done.
    + intros j Hnone. right. by apply Hkeep12.
    + intros keep' merge' Hkm Hk'. congruence.
Qed.

(** ** The consolidation loops *)

Lemma ordered_pair_cons_head {A} (x y : A) (l : list A) :
  y ∈ l → ordered_pair (x :: l) x y.
Proof.
  intros Hy. apply list_elem_of_lookup in Hy as [j Hj].
  exists 0%nat, (S j). split; [lia|]. done.
Qed.

Lemma ordered_pair_cons_tail {A} (z x y : A) (l : list A) :
  ordered_pair l x y → ordered_pair (z :: l) x y.
Proof.
  intros (i & j & Hij & Hi & Hj). exists (S i), (S j). split; [lia|]. done.
Qed.


Lemma ordered_pair_elem_of {A} (x y : A) (l : list A) :
  ordered_pair l x y → x ∈ l ∧ y ∈ l.
Proof.
  intros (i & j & _ & Hi & Hj). split; apply list_elem_of_lookup; eauto.
Qed.

Section Consolidation.
Variable clock : nat → string.
Variable threshold : cval.
Variable thr : Q.
Hypothesis threshold_number : cval_number threshold = Some thr.

Lemma number_of_threshold w : number_of threshold w = (Ok thr, w).
Proof. unfold number_of. by rewrite threshold_number. Qed.

(** One step of the inner loop, unfolded. *)
Lemma merge_later_cons e1 e2 rest st w :
  merge_later clock threshold false e1 (e2 :: rest) st w
  = if bool_decide (e_id e2 ∈ merged_ids st)
    then merge_later clock threshold false e1 rest st w
    else if within_threshold thr e1 e2
         then match _merge_episodes clock (e_id e1) (e_id e2) w with
              | (Ok _, w') => merge_later clock threshold false e1 rest (after_merge e1 e2 st) w'
              | (Raise e, w') => (Raise e, w')
              end
         else merge_later clock threshold false e1 rest st w.
Proof.
  simpl. destruct (bool_decide _); [done|].
  unfold bind at 1. rewrite number_of_threshold.
  unfold within_threshold. destruct (Qle_bool _ _); [|done].
  simpl. unfold bind at 1. by destruct (_merge_episodes _ _ _ _) as [[]].
Qed.

(** A property kept by every merge is kept by the inner loop, which always
    runs to its end. *)
Lemma merge_later_invariant (P : consolidation → world → Prop) e1 later :
  (∀ e2 st w w',
     e2 ∈ later → e_id e2 ∉ merged_ids st → within_threshold thr e1 e2 = true →
     P st w → _merge_episodes clock (e_id e1) (e_id e2) w = (Ok tt, w') →
     P (after_merge e1 e2 st) w') →
  ∀ st w, P st w →
  ∃ st' w', merge_later clock threshold false e1 later st w = (Ok st', w') ∧ P st' w'.
Proof.
  induction later as [|e2 rest IH]; intros Hstep st w HP.
  - by exists st, w.
  - assert (Hrest : ∀ e2' st w w',
              e2' ∈ rest → e_id e2' ∉ merged_ids st → within_threshold thr e1 e2' = true →
              P st w → _merge_episodes clock (e_id e1) (e_id e2') w = (Ok tt, w') →
              P (after_merge e1 e2' st) w').
    { intros e2' ? ? ? Hin. apply Hstep. by right. }
    rewrite merge_later_cons.
    destruct (bool_decide (e_id e2 ∈ merged_ids st)) eqn:Hm; [by apply IH|].
    apply bool_decide_eq_false in Hm.
    destruct (within_threshold thr e1 e2) eqn:Hsim; [|by apply IH].
    destruct (merge_episodes_effect clock (e_id e1) (e_id e2) w) as (w1 & Hmerge & _).
    rewrite Hmerge. apply IH; [done|].
    eapply Hstep; [by left|done..].
Qed.


Lemma merge_all_invariant (P : consolidation → world → Prop) l :
  (∀ e1 e2 st w w',
     ordered_pair l e1 e2 → e_id e2 ∉ merged_ids st → within_threshold thr e1 e2 = true →
     P st w → _merge_episodes clock (e_id e1) (e_id e2) w = (Ok tt, w') →
     P (after_merge e1 e2 st) w') →
  ∀ st w, P st w →
  ∃ st' w', merge_all clock threshold false l st w = (Ok st', w') ∧ P st' w'.
Proof.
  induction l as [|e1 later IH]; intros Hstep st w HP.
  - by exists st, w.
  - assert (Hlater : ∀ x y st w w',
              ordered_pair later x y → e_id y ∉ merged_ids st →
              within_threshold thr x y = true →
              P st w → _merge_episodes clock (e_id x) (e_id y) w = (Ok tt, w') →
              P (after_merge x y st) w').
    { intros x y ? ? ? Hxy. apply Hstep. by apply ordered_pair_cons_tail. }
    simpl. destruct (bool_decide (e_id e1 ∈ merged_ids st)); [by apply IH|].
    destruct (merge_later_invariant P e1 later) with (st := st) (w := w)
      as (st1 & w1 & Hinner & HP1); [|done|].
    { intros e2 ? ? ? Hin. apply Hstep. by apply ordered_pair_cons_head. }
    unfold bind at 1. rewrite Hinner. by apply IH.
Qed.


End Consolidation.

(** ** Consolidation at threshold one *)

Lemma nat_ratio_ge_one (i u : nat) :
  u ≠ 0%nat → (1 <= inject_Z (Z.of_nat i) / inject_Z (Z.of_nat u))%Q → (u ≤ i)%nat.
Proof.
  intros Hu H.
  assert (Hpos : (0 < inject_Z (Z.of_nat u))%Q).
  { rewrite <- (Zlt_Qlt 0). lia. }
  apply (Qmult_le_compat_r _ _ (inject_Z (Z.of_nat u))) in H; [|by apply Qlt_le_weak].
  rewrite Qmult_1_l in H.
  assert (Hcancel : (inject_Z (Z.of_nat i) / inject_Z (Z.of_nat u) * inject_Z (Z.of_nat u)
                     == inject_Z (Z.of_nat i))%Q).
  { rewrite Qmult_comm. apply Qmult_div_r. intros Hz. rewrite Hz in Hpos.
    by apply Qlt_irrefl in Hpos. }
  rewrite Hcancel in H. rewrite <- Zle_Qle in H. lia.
Qed.

(** A similarity of at least one means equal, non-empty token sets. *)
Lemma similarity_ge_one (a b : string) :
  (1 <= calculate_text_similarity a b)%Q →
  token_set a = token_set b ∧ token_set a ≠ ∅.
Proof.
  unfold calculate_text_similarity.
  destruct (negb (str_truthy a) || negb (str_truthy b)); [by intros H; vm_compute in H|].
  cbv zeta.
  destruct (bool_decide (token_set a = ∅)) eqn:Ha;
    [by intros H; vm_compute in H|].
  destruct (bool_decide (token_set b = ∅)) eqn:Hb;
    [by intros H; vm_compute in H|].
  simpl.
  destruct (bool_decide (token_set a ∪ token_set b = ∅)) eqn:Hu;
    [by intros H; vm_compute in H|].
  apply bool_decide_eq_false in Ha, Hu.
  intros H. apply nat_ratio_ge_one in H.
  - apply set_subseteq_size_eq in H; [|set_solver].
    split; [set_solver|done].
  - intros Hz. apply Hu. by apply size_empty_inv, leibniz_equiv in Hz.
Qed.

Lemma within_threshold_one (thr : Q) (e1 e2 : episodic_row) :
  (thr == 1)%Q → within_threshold thr e1 e2 = true →
  token_set (e_event_description e1) = token_set (e_event_description e2)
  ∧ token_set (e_event_description e1) ≠ ∅.
Proof.
  intros Hthr H. unfold within_threshold in H.
  apply Qle_bool_iff in H. rewrite Hthr in H. by apply similarity_ge_one.
Qed.

Lemma merges_only_equal_token_sets_step clock thr l w0 e1 e2 st w w' :
  (thr == 1)%Q →
  ordered_pair l e1 e2 → within_threshold thr e1 e2 = true →
  merges_only_equal_token_sets l w0 st w →
  _merge_episodes clock (e_id e1) (e_id e2) w = (Ok tt, w') →
  merges_only_equal_token_sets l w0 (after_merge e1 e2 st) w'.
Proof.
  intros Hthr Hpair Hsim (Hcount & Hcands & Hgone) Hmerge.
  destruct (ordered_pair_elem_of _ _ _ Hpair) as [Hin1 Hin2].
  destruct (within_threshold_one thr e1 e2 Hthr Hsim) as [Htok Hne].
  destruct (merge_episodes_effect clock (e_id e1) (e_id e2) w) as (w1 & Heq & _ & Hnone & _).
  rewrite Heq in Hmerge. simplify_eq.
  split; [|split]; simpl.
  - rewrite length_app. simpl. lia.
  - intros c Hc. apply elem_of_app in Hc as [Hc|Hc]; [by apply Hcands|].
    apply list_elem_of_singleton in Hc as ->. simpl. by exists e1, e2.
  - intros j Hj. destruct (Hnone j Hj) as [->|Hj'].
    + right. eexists. split; [apply elem_of_app; right; by apply list_elem_of_singleton|done].
    + destruct (Hgone j Hj') as [?|(c & Hc & Hid)]; [by left|].
      right. exists c. split; [|done]. apply elem_of_app. by left.
Qed.

(** C7 (as amended).  With the merge threshold equal to one, a non-dry-run
    consolidation records and merges a pair only if the two descriptions
    have the same non-empty set of lower-cased word tokens; every merge is a
    recorded candidate, and a row disappears only as the second row of one. *)
Theorem threshold_one_merges_equal_token_sets clock config sec (thr : Q)
    (w : world) (stats : consolidation) (w' : world) :
  config !! "consolidation" = Some (CSection sec) →
  sec !! "merge_similarity_threshold" = Some (CNum thr) →
  (thr == 1)%Q →
  consolidate_memories clock config false w = (Ok stats, w') →
  merged stats = Z.of_nat (length (candidates stats))
  ∧ (∀ c, c ∈ candidates stats →
       ∃ r1 r2, r1 ∈ episodic_memory (db w) ∧ r2 ∈ episodic_memory (db w)
                ∧ e_id r1 = id1 c ∧ e_id r2 = id2 c
                ∧ token_set (e_event_description r1) = token_set (e_event_description r2)
                ∧ token_set (e_event_description r1) ≠ ∅)
  ∧ (∀ j, stored_episode j w' = None →
       stored_episode j w = None ∨ ∃ c, c ∈ candidates stats ∧ id2 c = j).
Proof.
  intros Hsec Hkey Hthr Hrun.
  assert (Hgoal : merges_only_equal_token_sets (episodes_listed w) w stats w').
  { unfold consolidate_memories, section_or_empty, section in Hrun.
    rewrite Hsec in Hrun. unfold bind at 1 in Hrun. unfold ret at 1 in Hrun.
    destruct (negb (cval_truthy (get_or sec "enabled" (CBool true)))).
    - unfold ret in Hrun. simplify_eq. split; [done|]. split.
      + intros c Hc. by apply elem_of_nil in Hc.
      + intros j Hj. by left.
    - unfold bind at 1 in Hrun. unfold ret at 1 in Hrun.
      unfold bind at 1 in Hrun. rewrite get_all_episodic_memories_listed in Hrun.
      unfold get_or in Hrun. rewrite Hkey in Hrun. simpl in Hrun.
      destruct (merge_all_invariant clock (CNum thr) thr eq_refl
                  (merges_only_equal_token_sets (episodes_listed w) w)
                  (episodes_listed w)) with (st := no_stats) (w := w)
        as (st' & w1 & Hrun' & HP).
      + intros e1 e2 st w2 w3 Hpair _ Hsim HP Hmerge.
        by eapply merges_only_equal_token_sets_step.
      + split; [done|]. split.
        * intros c Hc. by apply elem_of_nil in Hc.
        * intros j Hj. by left.
      + unfold no_stats in Hrun'. rewrite Hrun' in Hrun. by simplify_eq. }
  destruct Hgoal as (Hcount & Hcands & Hgone). split; [done|]. split; [|done].
  intros c Hc. destruct (Hcands c Hc) as (r1 & r2 & H1 & H2 & Hrest).
  exists r1, r2. by rewrite <- !episodes_listed_elem_of.
Qed.

Lemma threshold_one_merges_equal_token_sets_witness :
  ∃ stats w',
    consolidate_memories Sample.clock (Sample.config_with_merge_threshold 1) false
      Sample.greeting_world = (Ok stats, w')
    ∧ merged stats = Z.of_nat (length (candidates stats))
    ∧ (∀ c, c ∈ candidates stats →
         ∃ r1 r2, r1 ∈ episodic_memory (db Sample.greeting_world)
                  ∧ r2 ∈ episodic_memory (db Sample.greeting_world)
                  ∧ e_id r1 = id1 c ∧ e_id r2 = id2 c
                  ∧ token_set (e_event_description r1) = token_set (e_event_description r2)
                  ∧ token_set (e_event_description r1) ≠ ∅)
    ∧ (∀ j, stored_episode j w' = None →
         stored_episode j Sample.greeting_world = None
         ∨ ∃ c, c ∈ candidates stats ∧ id2 c = j).
Proof.
  destruct (consolidate_memories Sample.clock (Sample.config_with_merge_threshold 1) false
              Sample.greeting_world) as [[stats|e] w'] eqn:Hrun.
  - exists stats, w'. split; [reflexivity|].
    apply (threshold_one_merges_equal_token_sets Sample.clock
             (Sample.config_with_merge_threshold 1)
             {["merge_similarity_threshold" := CNum 1]} 1 Sample.greeting_world stats w').
    + vm_compute. reflexivity.
    + vm_compute. reflexivity.
    + reflexivity.
    + exact Hrun.
  - vm_compute in Hrun. discriminate.
Defined.

(** C7 (as stated) fails: at threshold one the two descriptions
    ["Hello World"] and ["hello, world!"], which differ as strings, are
    merged. *)
Lemma threshold_one_merges_different_strings :
  ∃ stats w',
    consolidate_memories Sample.clock (Sample.config_with_merge_threshold 1) false
      Sample.greeting_world = (Ok stats, w')
    ∧ merged stats = 1
    ∧ map (λ c, (id1 c, id2 c)) (candidates stats) = [(2, 1)]
    ∧ stored_episode 1 w' = None
    ∧ e_event_description <$> stored_episode 1 Sample.greeting_world = Some "Hello World"
    ∧ e_event_description <$> stored_episode 2 Sample.greeting_world = Some "hello, world!"
    ∧ "Hello World" ≠ "hello, world!".
Proof.
  eexists _, _. split; [vm_compute; reflexivity|].
  repeat split. discriminate.
Qed.

(** ** Consolidation of an isolated pair *)








Lemma Sorted_weaken {A} (R1 R2 : A → A → Prop) (l : list A) :
  (∀ x y, R1 x y → R2 x y) → Sorted R1 l → Sorted R2 l.
Proof.
  intros Himp Hl. induction Hl as [|x l Hl IH Hhd]; constructor; [done|].
  destruct Hhd; constructor. by apply Himp.
Qed.

Lemma ltb_asym (s t : string) : String.ltb s t = true → String.ltb t s = false.
Proof.
  unfold String.ltb. rewrite (String.compare_antisym s t).
  by destruct (String.compare t s).
Qed.

Lemma not_ltb_leb (s t : string) : String.ltb t s = false → String.leb s t = true.
Proof.
  unfold String.ltb, String.leb. rewrite (String.compare_antisym s t).
  by destruct (String.compare t s).
Qed.


Lemma py_max_upper (a b : Q) : (a <= py_max a b)%Q ∧ (b <= py_max a b)%Q.
Proof.
  unfold py_max, Qlt_bool. destruct (Qle_bool b a) eqn:H; simpl.
  - apply Qle_bool_iff in H. split; [apply Qle_refl|done].
  - split; [|apply Qle_refl].
    destruct (Qlt_le_dec a b) as [Hlt|Hle]; [by apply Qlt_le_weak|].
    apply Qle_bool_iff in Hle. congruence.
Qed.




(** ** Similarity retrieval *)

Lemma configured_similarity_threshold_section config (thr : Q) :
  configured_similarity_threshold config = Some thr →
  ∃ retrieval, (∀ w, section_or_empty config "retrieval" w = (Ok retrieval, w))
    ∧ ∀ w, number_of (get_or retrieval "similarity_threshold" (CNum (3 # 10))) w = (Ok thr, w).
Proof.
  unfold configured_similarity_threshold, section_or_empty, number_of.
  destruct (config !! "retrieval") as [[v|m]|]; [done| |].
  - intros H. exists m. split; [done|]. intros w. by rewrite H.
  - intros [= <-]. exists ∅. split; [done|]. done.
Qed.

(** The loop keeps, in visiting order, the other records strictly above the
    threshold. *)
Lemma similar_loop_filter config (thr : Q) (k : kind) (reference : memory)
    (all : list memory) (w : world) :
  configured_similarity_threshold config = Some thr →
  similar_loop config (text_of_kind k) reference (text_of_kind k reference) all w
  = (Ok (map (with_similarity k reference)
           (filter (λ m, above_threshold k reference thr m) all)), w).
Proof.
  intros Hthr.
  destruct (configured_similarity_threshold_section config thr Hthr)
    as (retrieval & Hsec & Hnum).
  induction all as [|m rest IH]; [done|].
  cbn [similar_loop]. rewrite filter_cons.
  assert (Hscore : ∀ keep : bool,
    Qlt_bool thr (similarity_to k reference m) = keep →
    (run retrieval <~ section_or_empty config "retrieval" in
     run threshold <~ number_of (get_or retrieval "similarity_threshold" (CNum (3 # 10))) in
     run similarities <~
       similar_loop config (text_of_kind k) reference (text_of_kind k reference) rest in
     if Qlt_bool threshold
          (calculate_text_similarity (text_of_kind k reference) (text_of_kind k m))
     then ret ({| sc_memory := m;
                  sc_score := calculate_text_similarity (text_of_kind k reference)
                                (text_of_kind k m) |} :: similarities)
     else ret similarities) w
    = (Ok (if keep
           then with_similarity k reference m
                :: map (with_similarity k reference)
                     (filter (λ m, above_threshold k reference thr m) rest)
           else map (with_similarity k reference)
                  (filter (λ m, above_threshold k reference thr m) rest)), w)).
  { intros keep Hkeep. unfold bind at 1. rewrite Hsec. unfold bind at 1. rewrite Hnum.
    unfold bind at 1. rewrite IH. fold (similarity_to k reference m).
    rewrite Hkeep. by destruct keep. }
  destruct (decide (above_threshold k reference thr m)) as [Hyes|Hno].
  - unfold above_threshold in Hyes.
    apply Is_true_true, andb_true_iff in Hyes as [Hid Hlt].
    apply negb_true_iff in Hid. rewrite Hid. by rewrite (Hscore true Hlt).
  - unfold above_threshold in Hno.
    apply Is_true_false, andb_false_iff in Hno as [Hid|Hlt].
    + apply negb_false_iff in Hid. by rewrite Hid.
    + destruct (memory_id m =? memory_id reference); [done|].
      by rewrite (Hscore false Hlt).
Qed.

Lemma Qlt_bool_asym (a b : Q) : Qlt_bool a b = true → Qlt_bool b a = false.
Proof.
  unfold Qlt_bool. intros H. apply negb_true_iff in H. apply negb_false_iff.
  apply Qle_bool_iff. destruct (Qlt_le_dec a b) as [Hlt|Hle]; [by apply Qlt_le_weak|].
  apply Qle_bool_iff in Hle. congruence.
Qed.

Lemma Qlt_bool_false_le (a b : Q) : Qlt_bool a b = false → (b <= a)%Q.
Proof.
  unfold Qlt_bool. intros H. apply negb_false_iff in H. by apply Qle_bool_iff.
Qed.

(** Ranking by score: a permutation, in descending order of the score. *)
Lemma rank_by_score (l : list scored) :
  stable_sort (λ y x, Qlt_bool (sc_score x) (sc_score y)) l ≡ₚ l
  ∧ Sorted (λ x y, (sc_score y <= sc_score x)%Q)
      (stable_sort (λ y x, Qlt_bool (sc_score x) (sc_score y)) l).
Proof.
  split; [apply stable_sort_Permutation|].
  eapply Sorted_weaken; [|apply stable_sort_Sorted].
  - intros x y. unfold may_precede. apply Qlt_bool_false_le.
  - intros x y. apply Qlt_bool_asym.
Qed.

Lemma slice_to_nonneg {A} (n : Z) (l : list A) : 0 <= n → slice_to n l = take (Z.to_nat n) l.
Proof. intros Hn. unfold slice_to. by rewrite (proj2 (Z.leb_le 0 n) Hn). Qed.

(** C4 (as amended).  For each of the three kinds, [retrieve_similar]
    returns the first [limit] entries of a ranking that holds exactly the
    other records of that kind whose similarity to the reference text is
    strictly greater than the configured threshold, by descending
    similarity. *)
Theorem retrieve_similar_strictly_above_threshold config (thr : Q) (k : kind)
    (reference : memory) (limit : Z) (w : world) :
  configured_similarity_threshold config = Some thr →
  0 <= limit →
  ∃ ranked,
    retrieve_similar config reference (kind_name k) limit w
    = (Ok (take (Z.to_nat limit) ranked), w)
    ∧ ranked ≡ₚ map (with_similarity k reference)
                 (filter (λ m, above_threshold k reference thr m) (rows_of_kind k (db w)))
    ∧ Sorted (λ x y, (sc_score y <= sc_score x)%Q) ranked.
Proof.
  intros Hthr Hlimit.
  pose proof (similar_loop_filter config thr k reference) as Hloop.
  unfold retrieve_similar.
  destruct k; cbn [kind_name String.eqb Ascii.eqb Bool.eqb andb]; simpl String.eqb;
    unfold bind at 1; unfold bind at 1.
  - unfold get_all_episodic_memories. unfold bind at 1. unfold get_db, ret at 1.
    unfold bind at 1. cbn [text_of_kind] in Hloop. rewrite (Hloop _ w Hthr).
    unfold ret. rewrite slice_to_nonneg by done.
    eexists. split; [reflexivity|].
    destruct (rank_by_score (map (with_similarity KEpisodic reference)
      (filter (λ m, above_threshold KEpisodic reference thr m)
         (map Episodic (map _row_to_dict (optional_limit None
            (stable_sort (λ y x, String.ltb (e_timestamp x) (e_timestamp y))
               (episodic_memory (db w))))))))) as [Hperm Hsorted].
    split; [|exact Hsorted]. rewrite Hperm.
    unfold optional_limit, _row_to_dict. rewrite map_id.
    apply fmap_Permutation, filter_Permutation, fmap_Permutation, stable_sort_Permutation.
  - unfold get_all_semantic_memories. unfold bind at 1. unfold get_db, ret at 1.
    unfold bind at 1. cbn [text_of_kind] in Hloop. rewrite (Hloop _ w Hthr).
    unfold ret. rewrite slice_to_nonneg by done.
    eexists. split; [reflexivity|].
    destruct (rank_by_score (map (with_similarity KSemantic reference)
      (filter (λ m, above_threshold KSemantic reference thr m)
         (map Semantic (map _row_to_dict (optional_limit None
            (stable_sort (λ y x, String.ltb (s_concept_name y) (s_concept_name x))
               (semantic_memory (db w))))))))) as [Hperm Hsorted].
    split; [|exact Hsorted]. rewrite Hperm.
    unfold optional_limit, _row_to_dict. rewrite map_id.
    apply fmap_Permutation, filter_Permutation, fmap_Permutation, stable_sort_Permutation.
  - unfold get_all_procedural_memories. unfold bind at 1. unfold get_db, ret at 1.
    unfold bind at 1. cbn [text_of_kind] in Hloop. rewrite (Hloop _ w Hthr).
    unfold ret. rewrite slice_to_nonneg by done.
    eexists. split; [reflexivity|].
    destruct (rank_by_score (map (with_similarity KProcedural reference)
      (filter (λ m, above_threshold KProcedural reference thr m)
         (map Procedural (map _row_to_dict (optional_limit None
            (stable_sort (λ y x, String.ltb (p_procedure_name y) (p_procedure_name x))
               (procedural_memory (db w))))))))) as [Hperm Hsorted].
    split; [|exact Hsorted]. rewrite Hperm.
    unfold optional_limit, _row_to_dict. rewrite map_id.
    apply fmap_Permutation, filter_Permutation, fmap_Permutation, stable_sort_Permutation.
Qed.

Lemma retrieve_similar_strictly_above_threshold_witness :
  ∃ ranked,
    retrieve_similar default_config
      (Episodic (Sample.episode 1 "2025-01-01T00:00:00" "a b c d e f g" 50 0 []))
      (kind_name KEpisodic) 5 Sample.letters_world
    = (Ok (take (Z.to_nat 5) ranked), Sample.letters_world)
    ∧ ranked ≡ₚ map (with_similarity KEpisodic
                       (Episodic (Sample.episode 1 "2025-01-01T00:00:00" "a b c d e f g" 50 0 [])))
                 (filter (λ m, above_threshold KEpisodic
                                 (Episodic (Sample.episode 1 "2025-01-01T00:00:00"
                                              "a b c d e f g" 50 0 []))
                                 (3 # 10) m)
                    (rows_of_kind KEpisodic (db Sample.letters_world)))
    ∧ Sorted (λ x y, (sc_score y <= sc_score x)%Q) ranked.
Proof.
  apply (retrieve_similar_strictly_above_threshold default_config (3 # 10) KEpisodic
           (Episodic (Sample.episode 1 "2025-01-01T00:00:00" "a b c d e f g" 50 0 []))
           5 Sample.letters_world).
  - vm_compute. reflexivity.
  - lia.
Defined.

(** C4 (as stated) fails: with the default threshold 0.3, a record whose
    similarity to the reference is exactly 3/10 is not returned; only the
    record at 4/8 is. *)
Lemma retrieve_similar_drops_threshold_match :
  ∃ result,
    retrieve_similar default_config
      (Episodic (Sample.episode 1 "2025-01-01T00:00:00" "a b c d e f g" 50 0 []))
      "episodic" 5 Sample.letters_world
    = (Ok result, Sample.letters_world)
    ∧ map (λ s, memory_id (sc_memory s)) result = [3]
    ∧ configured_similarity_threshold default_config = Some (3 # 10)%Q
    ∧ e_event_description <$> stored_episode 2 Sample.letters_world = Some "a b c h i j"
    ∧ (calculate_text_similarity "a b c d e f g" "a b c h i j" == 3 # 10)%Q
    ∧ (3 # 10 <= calculate_text_similarity "a b c d e f g" "a b c h i j")%Q.
Proof.
  eexists. split; [vm_compute; reflexivity|].
  repeat split; try (vm_compute; reflexivity).
  vm_compute. discriminate.
Qed.

(** * Further properties of the code *)

(** ** The tokenizer *)

Lemma all_chars_app (P : ascii → bool) (s t : string) :
  all_chars P (s ++ t) = all_chars P s && all_chars P t.
Proof.
  induction s as [|c s IH]; [done|].
  change (all_chars P (String c s ++ t)) with (P c && all_chars P (s ++ t)).
  rewrite IH. simpl. by rewrite andb_assoc.
Qed.

Lemma flush_tokens (cur t : string) :
  all_chars is_word_char cur = true → t ∈ flush cur → is_token t.
Proof.
  intros Hcur Ht. destruct cur as [|c cur]; simpl in Ht.
  - by apply elem_of_nil in Ht.
  - apply list_elem_of_singleton in Ht as ->. by split.
Qed.

Lemma findall_word_tokens (cur text t : string) :
  all_chars is_word_char cur = true → t ∈ findall_word cur text → is_token t.
Proof.
  revert cur. induction text as [|c text IH]; intros cur Hcur Ht; simpl in Ht.
  - by eapply flush_tokens.
  - destruct (is_word_char c) eqn:Hc.
    + apply (IH (cur ++ String c EmptyString)%string); [|done].
      rewrite all_chars_app, Hcur. simpl. by rewrite Hc.
    + apply elem_of_app in Ht as [Ht|Ht]; [by eapply flush_tokens|].
      by apply (IH EmptyString).
Qed.

(** X1.  Every token the tokenizer returns is a non-empty run of word
    characters. *)
Theorem tokenize_yields_tokens (text t : string) :
  t ∈ _tokenize text → is_token t.
Proof. by apply findall_word_tokens. Qed.

Lemma tokenize_yields_tokens_witness : is_token "world_1".
Proof.
  apply (tokenize_yields_tokens "hello, world_1!" "world_1").
  vm_compute. apply list_elem_of_In. simpl. auto.
Defined.

Lemma string_app_empty_r (s : string) : (s ++ EmptyString)%string = s.
Proof.
  induction s as [|c s IH]; [done|].
  change (String c s ++ EmptyString)%string with (String c (s ++ EmptyString)%string).
  by rewrite IH.
Qed.

Lemma string_app_snoc (s t : string) (c : ascii) :
  ((s ++ String c EmptyString) ++ t)%string = (s ++ String c t)%string.
Proof.
  induction s as [|d s IH]; [done|].
  change ((String d s ++ String c EmptyString) ++ t)%string
    with (String d ((s ++ String c EmptyString) ++ t)%string).
  by rewrite IH.
Qed.

Lemma findall_word_word_prefix (cur word rest : string) :
  all_chars is_word_char word = true →
  findall_word cur (word ++ rest) = findall_word (cur ++ word) rest.
Proof.
  revert cur. induction word as [|c word IH]; intros cur Hw.
  - change (EmptyString ++ rest)%string with rest. by rewrite string_app_empty_r.
  - change (String c word ++ rest)%string with (String c (word ++ rest)%string).
    simpl in Hw. apply andb_true_iff in Hw as [Hc Hw].
    cbn [findall_word]. rewrite Hc.
    rewrite IH by done. by rewrite string_app_snoc.
Qed.

Lemma tokenize_single (t : string) : is_token t → _tokenize t = [t].
Proof.
  intros [Hne Hw]. unfold _tokenize.
  rewrite <- (string_app_empty_r t) at 1.
  rewrite findall_word_word_prefix by done.
  by destruct t.
Qed.

Lemma tokenize_token_then_space (t rest : string) :
  is_token t → _tokenize (t ++ " " ++ rest) = t :: _tokenize rest.
Proof.
  intros [Hne Hw]. unfold _tokenize.
  rewrite findall_word_word_prefix by done.
  change (" " ++ rest)%string with (String " " rest).
  cbn [findall_word]. change (is_word_char " ") with false. cbv iota.
  by destruct t.
Qed.

(** X2.  Round trip: tokenizing the tokens joined by single spaces gives the
    tokens back. *)
Theorem tokenize_join_round_trip (tokens : list string) :
  Forall is_token tokens → _tokenize (join " " tokens) = tokens.
Proof.
  induction 1 as [|t tokens Ht Hts IH]; [done|].
  destruct tokens as [|t' tokens].
  - simpl. by apply tokenize_single.
  - change (join " " (t :: t' :: tokens))
      with (t ++ " " ++ join " " (t' :: tokens))%string.
    rewrite tokenize_token_then_space by done. by rewrite IH.
Qed.

Lemma tokenize_join_round_trip_witness :
  _tokenize (join " " ["user"; "clicked"; "log_in"; "42"]) = ["user"; "clicked"; "log_in"; "42"].
Proof.
  apply tokenize_join_round_trip.
  repeat (apply Forall_cons; split; [by split|]). apply Forall_nil_2.
Defined.

(** ** Jaccard similarity: range, zero, letter case *)

Lemma nat_ratio_range (i u : nat) :
  u ≠ 0%nat → (i ≤ u)%nat →
  (0 <= inject_Z (Z.of_nat i) / inject_Z (Z.of_nat u))%Q
  ∧ (inject_Z (Z.of_nat i) / inject_Z (Z.of_nat u) <= 1)%Q.
Proof.
  intros Hu Hiu.
  assert (Hpos : (0 < inject_Z (Z.of_nat u))%Q).
  { rewrite <- (Zlt_Qlt 0). lia. }
  split.
  - apply Qle_shift_div_l; [done|]. rewrite Qmult_0_l.
    rewrite <- (Zle_Qle 0). lia.
  - apply Qle_shift_div_r; [done|]. rewrite Qmult_1_l.
    rewrite <- Zle_Qle. lia.
Qed.

Lemma nat_ratio_zero (i u : nat) :
  u ≠ 0%nat →
  (inject_Z (Z.of_nat i) / inject_Z (Z.of_nat u) == 0)%Q ↔ i = 0%nat.
Proof.
  intros Hu.
  assert (Hnz : ¬ (inject_Z (Z.of_nat u) == 0)%Q).
  { unfold Qeq. simpl. lia. }
  split.
  - intros H.
    assert (Hi : (inject_Z (Z.of_nat i) == 0)%Q).
    { rewrite <- (Qmult_div_r (inject_Z (Z.of_nat i)) (inject_Z (Z.of_nat u))) by done.
      rewrite H. apply Qmult_0_r. }
    unfold Qeq in Hi. simpl in Hi. lia.
  - intros ->. unfold Qdiv. apply Qmult_0_l.
Qed.

Lemma size_inter_le_union (X Y : gset string) : (size (X ∩ Y) ≤ size (X ∪ Y))%nat.
Proof. apply subseteq_size. set_solver. Qed.

Lemma inter_empty_l (X Y : gset string) : X = ∅ → X ∩ Y = ∅.
Proof. set_solver. Qed.

Lemma inter_empty_r (X Y : gset string) : Y = ∅ → X ∩ Y = ∅.
Proof. set_solver. Qed.

Lemma token_set_falsy (a : string) : str_truthy a = false → token_set a = ∅.
Proof. by destruct a. Qed.

(** X3.  The similarity lies between 0 and 1, and it is 0 exactly when the
    two texts share no token. *)
Theorem similarity_range_and_zero (a b : string) :
  (0 <= calculate_text_similarity a b)%Q
  ∧ (calculate_text_similarity a b <= 1)%Q
  ∧ ((calculate_text_similarity a b == 0)%Q ↔ token_set a ∩ token_set b = ∅).
Proof.
  assert (Hzero : token_set a ∩ token_set b = ∅ →
            (0 <= 0)%Q ∧ (0 <= 1)%Q ∧ ((0 == 0)%Q ↔ token_set a ∩ token_set b = ∅)).
  { intros He. split; [done|]. split; [done|]. split; [done|reflexivity]. }
  unfold calculate_text_similarity.
  destruct (str_truthy a) eqn:Hta; simpl;
    [|apply Hzero, inter_empty_l; by apply token_set_falsy].
  destruct (str_truthy b) eqn:Htb; simpl;
    [|apply Hzero, inter_empty_r; by apply token_set_falsy].
  destruct (bool_decide (token_set a = ∅)) eqn:Ha; simpl.
  { apply bool_decide_eq_true in Ha. by apply Hzero, inter_empty_l. }
  destruct (bool_decide (token_set b = ∅)) eqn:Hb; simpl.
  { apply bool_decide_eq_true in Hb. by apply Hzero, inter_empty_r. }
  destruct (bool_decide (token_set a ∪ token_set b = ∅)) eqn:Hu.
  { apply bool_decide_eq_true in Hu. apply Hzero. set_solver. }
  apply bool_decide_eq_false in Hu.
  assert (Hsz : size (token_set a ∪ token_set b) ≠ 0%nat).
  { intros Hz. apply Hu. by apply size_empty_inv, leibniz_equiv in Hz. }
  destruct (nat_ratio_range _ _ Hsz (size_inter_le_union (token_set a) (token_set b)))
    as [Hlo Hhi].
  split; [done|]. split; [done|].
  rewrite nat_ratio_zero by done. split.
  - intros Hz. by apply size_empty_inv, leibniz_equiv in Hz.
  - intros ->. apply size_empty.
Qed.

Lemma lower_char_idemp (c : ascii) : lower_char (lower_char c) = lower_char c.
Proof. destruct c as [[] [] [] [] [] [] [] []]; reflexivity. Qed.

Lemma lower_idemp (s : string) : lower (lower s) = lower s.
Proof.
  induction s as [|c s IH]; simpl; [done|]. by rewrite lower_char_idemp, IH.
Qed.

Lemma token_set_lower (s : string) : token_set (lower s) = token_set s.
Proof. unfold token_set. by rewrite lower_idemp. Qed.

(** X4.  The similarity does not see letter case: lower-casing either text
    leaves it unchanged. *)
Theorem similarity_ignores_case (a b : string) :
  calculate_text_similarity (lower a) b = calculate_text_similarity a b
  ∧ calculate_text_similarity a (lower b) = calculate_text_similarity a b.
Proof.
  assert (Ht : ∀ s, str_truthy (lower s) = str_truthy s) by (by intros []).
  unfold calculate_text_similarity.
  by rewrite !Ht, !token_set_lower.
Qed.

(** ** merge_tags on any number of columns *)

Lemma update_all_elem_of (X : gset string) (tags_list : list (option (list string)))
    (t : string) :
  t ∈ update_all X tags_list ↔ t ∈ X ∨ carries_tag tags_list t.
Proof.
  revert X. induction tags_list as [|[tags|] rest IH]; intros X; simpl.
  - split; [by left|]. intros [?|(tags & Hin & _)]; [done|]. by apply elem_of_nil in Hin.
  - rewrite IH, elem_of_union, elem_of_list_to_set. unfold carries_tag. split.
    + intros [[?|?]|(tags' & Hin & Ht)]; [by left| |].
      * right. exists tags. split; [by left|done].
      * right. exists tags'. split; [by right|done].
    + intros [?|(tags' & Hin & Ht)]; [by left; left|].
      apply elem_of_cons in Hin as [[= ->]|Hin]; [by left; right|].
      right. by exists tags'.
  - rewrite IH. unfold carries_tag. split.
    + intros [?|(tags' & Hin & Ht)]; [by left|].
      right. exists tags'. split; [by right|done].
    + intros [?|(tags' & Hin & Ht)]; [by left|].
      apply elem_of_cons in Hin as [?|Hin]; [done|].
      right. by exists tags'.
Qed.

(** X5.  For any list of tag columns, [merge_tags] is in ascending order,
    has no duplicate, and holds exactly the tags some column carries (a NULL
    column carries none). *)
Theorem merge_tags_sorted_set (tags_list : list (option (list string))) :
  Sorted (λ s t, String.leb s t = true) (merge_tags tags_list)
  ∧ NoDup (merge_tags tags_list)
  ∧ ∀ t, t ∈ merge_tags tags_list ↔ carries_tag tags_list t.
Proof.
  unfold merge_tags. split; [|split].
  - eapply Sorted_weaken; [|apply stable_sort_Sorted, ltb_asym].
    intros s t. apply not_ltb_leb.
  - rewrite stable_sort_Permutation. apply NoDup_elements.
  - intros t. rewrite stable_sort_elem_of, elem_of_elements, update_all_elem_of.
    set_solver.
Qed.

(** X6.  The result depends only on which tags are carried: two inputs with
    the same tags, in whatever order, grouping or multiplicity, give the same
    list; merging a merged list changes nothing. *)
Theorem merge_tags_canonical (l1 l2 : list (option (list string))) :
  (∀ t, carries_tag l1 t ↔ carries_tag l2 t) →
  merge_tags l1 = merge_tags l2
  ∧ merge_tags [Some (merge_tags l1)] = merge_tags l1.
Proof.
  intros Hsame.
  assert (Heq : ∀ a b : list (option (list string)),
            (∀ t, carries_tag a t ↔ carries_tag b t) → merge_tags a = merge_tags b).
  { intros a b Hab. unfold merge_tags. f_equal. f_equal.
    apply set_eq. intros t. rewrite !update_all_elem_of. set_solver. }
  split; [by apply Heq|].
  apply Heq. intros t.
  destruct (merge_tags_sorted_set l1) as (_ & _ & Hmem).
  rewrite <- Hmem. unfold carries_tag. split.
  - intros (tags & Hin & Ht). by apply list_elem_of_singleton in Hin as [= <-].
  - intros Ht. exists (merge_tags l1). split; [by apply list_elem_of_singleton|done].
Qed.

Lemma merge_tags_canonical_witness :
  merge_tags [Some ["b"; "a"]; None; Some ["a"; "c"]] = merge_tags [Some ["c"; "b"; "a"; "a"]]
  ∧ merge_tags [Some (merge_tags [Some ["b"; "a"]; None; Some ["a"; "c"]])]
    = merge_tags [Some ["b"; "a"]; None; Some ["a"; "c"]].
Proof.
  apply (merge_tags_canonical [Some ["b"; "a"]; None; Some ["a"; "c"]]
           [Some ["c"; "b"; "a"; "a"]]).
  intros t. unfold carries_tag. split.
  - intros (tags & Hin & Ht). exists ["c"; "b"; "a"; "a"].
    split; [by apply list_elem_of_singleton|].
    apply elem_of_cons in Hin as [Hin|Hin]; [|apply elem_of_cons in Hin as [Hin|Hin];
      [done|apply list_elem_of_singleton in Hin]]; simplify_eq;
      revert Ht; rewrite !elem_of_cons, !elem_of_nil; tauto.
  - intros (tags & Hin & Ht). apply list_elem_of_singleton in Hin as [= ->].
    revert Ht. rewrite !elem_of_cons, elem_of_nil. intros [->|[->|[->|[->|[]]]]].
    + exists ["a"; "c"]. rewrite !elem_of_cons. tauto.
    + exists ["b"; "a"]. rewrite !elem_of_cons. tauto.
    + exists ["b"; "a"]. rewrite !elem_of_cons. tauto.
    + exists ["b"; "a"]. rewrite !elem_of_cons. tauto.
Defined.

(** ** extract_keywords *)

Lemma freq_incr_keys (token : string) (freq : list (string * nat)) :
  map fst (freq_incr token freq)
  = if bool_decide (token ∈ map fst freq) then map fst freq else (map fst freq ++ [token])%list.
Proof.
  induction freq as [|[w c] freq IH]; simpl.
  - done.
  - destruct (String.eqb w token) eqn:Hw.
    + apply String.eqb_eq in Hw as ->. simpl.
      rewrite bool_decide_eq_true_2; [done|]. by left.
    + apply String.eqb_neq in Hw. simpl. rewrite IH.
      destruct (bool_decide (token ∈ map fst freq)) eqn:Hin.
      * apply bool_decide_eq_true in Hin.
        rewrite bool_decide_eq_true_2; [done|]. by right.
      * apply bool_decide_eq_false in Hin.
        rewrite bool_decide_eq_false_2; [done|].
        intros [?|?]%elem_of_cons; [congruence|done].
Qed.

Lemma freq_incr_count (token t : string) (freq : list (string * nat)) :
  freq_count (freq_incr token freq) t
  = (freq_count freq t + if bool_decide (t = token) then 1 else 0)%nat.
Proof.
  unfold freq_count. induction freq as [|[w c] freq IH]; simpl.
  - destruct (String.eqb token t) eqn:Ht.
    + apply String.eqb_eq in Ht as ->. by rewrite bool_decide_eq_true_2.
    + apply String.eqb_neq in Ht. by rewrite bool_decide_eq_false_2.
  - destruct (String.eqb w token) eqn:Hw; simpl.
    + apply String.eqb_eq in Hw as ->.
      destruct (String.eqb token t) eqn:Ht; simpl.
      * apply String.eqb_eq in Ht as ->. rewrite bool_decide_eq_true_2 by done. lia.
      * apply String.eqb_neq in Ht. rewrite bool_decide_eq_false_2 by done. lia.
    + destruct (String.eqb w t) eqn:Ht; simpl; [|exact IH].
      apply String.eqb_eq in Ht as ->. apply String.eqb_neq in Hw.
      rewrite bool_decide_eq_false_2 by done. lia.
Qed.

Lemma freq_incr_positive (token : string) (freq : list (string * nat)) :
  Forall (λ entry, (0 < snd entry)%nat) freq →
  Forall (λ entry, (0 < snd entry)%nat) (freq_incr token freq).
Proof.
  induction 1 as [|[w c] freq Hc Hrest IH]; simpl.
  - constructor; [simpl; lia|constructor].
  - destruct (String.eqb w token); constructor; simpl in *; try done; lia.
Qed.

(** The frequency dict after the counting loop. *)
Lemma count_frequencies_spec (tokens : list string) :
  NoDup (map fst (count_frequencies tokens))
  ∧ Forall (λ entry, (0 < snd entry)%nat) (count_frequencies tokens)
  ∧ (∀ t, t ∈ map fst (count_frequencies tokens) ↔ t ∈ tokens)
  ∧ (∀ t, freq_count (count_frequencies tokens) t = occurrences tokens t).
Proof.
  unfold count_frequencies.
  assert (Hgen : ∀ (freq : list (string * nat)) (seen : list string),
    NoDup (map fst freq) →
    Forall (λ entry, (0 < snd entry)%nat) freq →
    (∀ t, t ∈ map fst freq ↔ t ∈ seen) →
    (∀ t, freq_count freq t = occurrences seen t) →
    let result := fold_left (λ freq token, freq_incr token freq) tokens freq in
    NoDup (map fst result)
    ∧ Forall (λ entry, (0 < snd entry)%nat) result
    ∧ (∀ t, t ∈ map fst result ↔ t ∈ (seen ++ tokens)%list)
    ∧ (∀ t, freq_count result t = occurrences (seen ++ tokens)%list t)).
  { induction tokens as [|token tokens IH]; intros freq seen Hnd Hpos Hkeys Hcount; simpl.
    - rewrite app_nil_r. done.
    - replace (seen ++ token :: tokens)%list with ((seen ++ [token]) ++ tokens)%list
        by (by rewrite <- app_assoc).
      apply IH.
      + rewrite freq_incr_keys. case_bool_decide; [done|].
        apply NoDup_app. split; [done|]. split; [|apply NoDup_singleton].
        intros x Hx ->%list_elem_of_singleton. done.
      + by apply freq_incr_positive.
      + intros t. rewrite freq_incr_keys, elem_of_app, list_elem_of_singleton.
        case_bool_decide as Hin.
        * rewrite Hkeys. split; [by left|]. intros [?| ->]; [done|]. by apply Hkeys.
        * by rewrite elem_of_app, Hkeys, list_elem_of_singleton.
      + intros t. rewrite freq_incr_count, Hcount. unfold occurrences.
        rewrite count_occ_app. simpl.
        destruct (string_dec token t) as [->|Hne].
        * by rewrite bool_decide_eq_true_2.
        * by rewrite bool_decide_eq_false_2 by congruence. }
  apply (Hgen [] []); simpl; [constructor|constructor| |done].
  intros t. split; intros H; by apply elem_of_nil in H.
Qed.

Lemma freq_count_of_entry (freq : list (string * nat)) (entry : string * nat) :
  NoDup (map fst freq) → entry ∈ freq → freq_count freq (fst entry) = snd entry.
Proof.
  unfold freq_count. induction freq as [|[w c] freq IH]; intros Hnd Hin.
  - by apply elem_of_nil in Hin.
  - simpl in Hnd. apply NoDup_cons in Hnd as [Hw Hnd].
    apply elem_of_cons in Hin as [->|Hin]; simpl.
    + by rewrite String.eqb_refl.
    + destruct (String.eqb w (fst entry)) eqn:He; [|by apply IH].
      apply String.eqb_eq in He as ->. destruct Hw.
      apply list_elem_of_fmap. by exists entry.
Qed.

Lemma slice_to_is_take {A} (n : Z) (l : list A) : ∃ k, slice_to n l = take k l.
Proof. unfold slice_to. destruct (0 <=? n); eauto. Qed.

Lemma Sorted_take {A} (R : A → A → Prop) (k : nat) (l : list A) :
  Sorted R l → Sorted R (take k l).
Proof.
  intros Hl. revert k. induction Hl as [|x l Hl IH Hhd]; intros [|k]; simpl;
    try constructor; [apply IH|].
  destruct Hhd; destruct k; simpl; by constructor.
Qed.

Lemma Sorted_fmap_elem_of {A B} (R1 : A → A → Prop) (R2 : B → B → Prop) (f : A → B)
    (l : list A) :
  (∀ x y, x ∈ l → y ∈ l → R1 x y → R2 (f x) (f y)) →
  Sorted R1 l → Sorted R2 (map f l).
Proof.
  intros Himp Hl. induction Hl as [|x l Hl IH Hhd]; simpl; constructor.
  - apply IH. intros a b Ha Hb. apply Himp; by right.
  - destruct Hhd as [|y l' Hxy]; simpl; constructor.
    apply Himp; [by left|by right; left|done].
Qed.

(** X7.  The keywords are pairwise distinct tokens of the lower-cased text,
    none a stop word, each longer than two characters, listed by
    non-increasing number of occurrences; a non-negative [max_keywords]
    bounds their number, and an empty text has none. *)
Theorem extract_keywords_properties (text : string) (max_keywords : Z) :
  NoDup (extract_keywords text max_keywords)
  ∧ (∀ k, k ∈ extract_keywords text max_keywords →
       k ∈ _tokenize (lower text) ∧ str_in k stop_words = false
       ∧ (2 < String.length k)%nat)
  ∧ Sorted (λ a b, (occurrences (keyword_tokens text) b
                    ≤ occurrences (keyword_tokens text) a)%nat)
      (extract_keywords text max_keywords)
  ∧ (0 <= max_keywords →
     (length (extract_keywords text max_keywords) ≤ Z.to_nat max_keywords)%nat)
  ∧ extract_keywords EmptyString max_keywords = [].
Proof.
  unfold extract_keywords.
  destruct (str_truthy text);
    [change (negb true) with false|change (negb false) with true]; cbv iota.
  2: { split; [apply NoDup_nil_2|]. split; [intros k Hk; by apply elem_of_nil in Hk|].
       split; [constructor|]. split; [simpl; lia|done]. }
  fold (keyword_tokens text).
  destruct (count_frequencies_spec (keyword_tokens text))
    as (Hnd & Hpos & Hkeys & Hcount).
  set (sorted := stable_sort (λ y x : string * nat, (snd x <? snd y)%nat)
                   (count_frequencies (keyword_tokens text))).
  assert (Hperm : sorted ≡ₚ count_frequencies (keyword_tokens text))
    by apply stable_sort_Permutation.
  destruct (slice_to_is_take max_keywords sorted) as [k Hk].
  assert (Hsub : ∀ entry, entry ∈ take k sorted →
                          entry ∈ count_frequencies (keyword_tokens text)).
  { intros entry Hin. rewrite <- Hperm. by eapply subseteq_take. }
  split; [|split; [|split; [|split]]].
  - rewrite Hk. change (map fst (take k sorted)) with (fst <$> take k sorted).
    rewrite fmap_take. eapply sublist_NoDup; [|apply sublist_take].
    change (fst <$> sorted) with (map fst sorted). by rewrite Hperm.
  - intros kw Hkw. rewrite Hk in Hkw.
    apply list_elem_of_fmap in Hkw as (entry & -> & Hin).
    assert (Hin' : fst entry ∈ keyword_tokens text).
    { apply Hkeys. apply list_elem_of_fmap. exists entry. split; [done|]. by apply Hsub. }
    unfold keyword_tokens in Hin'. apply list_elem_of_filter in Hin' as [Hpass Htok].
    apply Is_true_true, andb_true_iff in Hpass as [Hstop Hlen].
    split; [done|]. split; [by apply negb_true_iff|].
    by apply Nat.ltb_lt.
  - rewrite Hk.
    apply (Sorted_fmap_elem_of (λ x y : string * nat, (snd y ≤ snd x)%nat)).
    + intros x y Hx Hy Hxy.
      rewrite <- !Hcount.
      rewrite !freq_count_of_entry by (done || by apply Hsub). done.
    + apply Sorted_take.
      eapply Sorted_weaken; [|apply stable_sort_Sorted].
      * intros x y. unfold may_precede. intros H. apply Nat.ltb_ge in H. done.
      * intros x y H. apply Nat.ltb_lt in H. apply Nat.ltb_ge. lia.
  - intros Hmax. rewrite length_map, slice_to_nonneg by done.
    rewrite length_take. lia.
  - done.
Qed.

Lemma extract_keywords_properties_witness :
  (length (extract_keywords "the user clicked login and the user waited" 2) ≤ Z.to_nat 2)%nat.
Proof.
  destruct (extract_keywords_properties "the user clicked login and the user waited" 2)
    as (_ & _ & _ & Hlen & _).
  apply Hlen. lia.
Defined.

(** ** Validation *)






(** ** Scores *)

Lemma Qmin_le_iff_l (a b : Q) : (Qmin a b <= a)%Q ∧ (Qmin a b <= b)%Q.
Proof. split; [apply Q.le_min_l|apply Q.le_min_r]. Qed.

(** X9.  The importance score always lies in [0, 100]; when the four
    factors lie in [0, 1] the clamping is idle and the score is the weighted
    sum times 100. *)
Theorem calculate_importance_score_bounds (e n r c : Q) :
  (0 <= calculate_importance_score e n r c)%Q
  ∧ (calculate_importance_score e n r c <= 100)%Q
  ∧ ((0 <= e)%Q ∧ (e <= 1)%Q → (0 <= n)%Q ∧ (n <= 1)%Q →
     (0 <= r)%Q ∧ (r <= 1)%Q → (0 <= c)%Q ∧ (c <= 1)%Q →
     (calculate_importance_score e n r c
      == (e * (3 # 10) + n * (25 # 100) + r * (25 # 100) + c * (2 # 10)) * 100)%Q).
Proof.
  unfold calculate_importance_score. cbv zeta.
  set (score := ((e * (3 # 10) + n * (25 # 100) + r * (25 # 100) + c * (2 # 10)) * 100)%Q).
  split; [|split].
  - apply Q.min_glb; [done|apply Q.le_max_l].
  - apply Q.le_min_l.
  - intros [He0 He1] [Hn0 Hn1] [Hr0 Hr1] [Hc0 Hc1].
    assert (Hlo : (0 <= score)%Q) by (unfold score; lra).
    assert (Hhi : (score <= 100)%Q) by (unfold score; lra).
    rewrite (Q.max_r 0 score) by done. by rewrite Q.min_r.
Qed.

Lemma calculate_importance_score_bounds_witness :
  (calculate_importance_score (1 # 2) (1 # 2) (1 # 2) (1 # 2)
   == ((1 # 2) * (3 # 10) + (1 # 2) * (25 # 100) + (1 # 2) * (25 # 100)
       + (1 # 2) * (2 # 10)) * 100)%Q.
Proof.
  destruct (calculate_importance_score_bounds (1 # 2) (1 # 2) (1 # 2) (1 # 2))
    as (_ & _ & H).
  apply H; split; vm_compute; discriminate.
Defined.

(** X10.  The retrieval boost never exceeds 20, equals
    [retrieval_count * boost_factor] while that is at most 20, and for a
    non-negative factor does not decrease when the count grows. *)
Theorem calculate_retrieval_boost_properties (count count' : Z) (factor : Q) :
  (calculate_retrieval_boost count factor <= 20)%Q
  ∧ ((inject_Z count * factor <= 20)%Q →
     (calculate_retrieval_boost count factor == inject_Z count * factor)%Q)
  ∧ ((0 <= factor)%Q → count <= count' →
     (calculate_retrieval_boost count factor <= calculate_retrieval_boost count' factor)%Q).
Proof.
  unfold calculate_retrieval_boost. split; [apply Q.le_min_l|]. split.
  - intros H. by apply Q.min_r.
  - intros Hf Hc. apply Q.min_le_compat_l.
    apply Qmult_le_compat_r; [|done]. by rewrite <- Zle_Qle.
Qed.

Lemma calculate_retrieval_boost_properties_witness :
  (calculate_retrieval_boost 100 (5 # 100) == inject_Z 100 * (5 # 100))%Q
  ∧ (calculate_retrieval_boost 100 (5 # 100) <= calculate_retrieval_boost 1000 (5 # 100))%Q.
Proof.
  destruct (calculate_retrieval_boost_properties 100 1000 (5 # 100)) as (_ & Heq & Hmono).
  split; [apply Heq|apply Hmono]; try lia; vm_compute; discriminate.
Defined.

(** ** Temporal decay *)

Section Decay.
Variable days_ago : string → option Z.
Variable exp : Q → Q.
Hypothesis exp_le_one : ∀ x, (x <= 0)%Q → (exp x <= 1)%Q.

(** X11.  Decay never raises for a non-zero half-life, gives back the
    importance untouched when the timestamp does not parse, lies in the
    future or a parameter is a string, and otherwise, for a non-negative
    importance and rate and a positive half-life, yields a value between 0 and
    the importance.  A half-life of 0 on a parseable past timestamp is a
    [ZeroDivisionError]. *)
Theorem apply_temporal_decay_behaviour (importance : Q) (timestamp : string)
    (rate half_life : Q) (text : string) (w : world) :
  (days_ago timestamp = None ∨ (∃ d, days_ago timestamp = Some d ∧ d < 0) →
   ∀ r h, apply_temporal_decay days_ago exp importance timestamp r h w = (Ok importance, w))
  ∧ (∀ d h, days_ago timestamp = Some d → 0 <= d →
       apply_temporal_decay days_ago exp importance timestamp (CStr text) h w
       = (Ok importance, w)
       ∧ apply_temporal_decay days_ago exp importance timestamp (CNum rate) (CStr text) w
         = (Ok importance, w)
       ∧ apply_temporal_decay days_ago exp importance timestamp (CNum rate) (CNum 0) w
         = (Raise ZeroDivisionError, w))
  ∧ ((0 <= importance)%Q → (0 <= rate)%Q → (0 < half_life)%Q →
     ∃ decayed,
       apply_temporal_decay days_ago exp importance timestamp (CNum rate) (CNum half_life) w
       = (Ok decayed, w)
       ∧ (0 <= decayed)%Q ∧ (decayed <= importance)%Q).
Proof.
  unfold apply_temporal_decay. split; [|split].
  - intros [->|(d & -> & Hd)] r h; [done|].
    by rewrite (proj2 (Z.ltb_lt d 0) Hd).
  - intros d h -> Hd. rewrite (proj2 (Z.ltb_ge d 0) Hd). simpl.
    split; [done|]. split; [done|]. done.
  - intros Hi Hr Hh.
    destruct (days_ago timestamp) as [d|]; [|exists importance; repeat split; try done;
      apply Qle_refl].
    destruct (d <? 0) eqn:Hd; [exists importance; repeat split; try done; apply Qle_refl|].
    apply Z.ltb_ge in Hd. simpl.
    destruct (Qeq_bool half_life 0) eqn:Hz.
    { apply Qeq_bool_iff in Hz. rewrite Hz in Hh. by apply Qlt_irrefl in Hh. }
    eexists. split; [reflexivity|]. split; [apply Q.le_max_l|].
    apply Q.max_lub; [done|].
    rewrite <- (Qmult_1_r importance) at 2.
    rewrite !(Qmult_comm importance).
    apply Qmult_le_compat_r; [|done].
    apply exp_le_one.
    apply Qle_shift_div_r; [done|]. rewrite Qmult_0_l.
    assert (H0 : (0 <= rate * inject_Z d)%Q).
    { apply Qmult_le_0_compat; [done|]. by rewrite <- (Zle_Qle 0). }
    lra.
Qed.

End Decay.

Lemma apply_temporal_decay_behaviour_witness :
  ∃ decayed,
    apply_temporal_decay Sample.age Sample.exp_one 80 "2025-01-01T00:00:00"
      (CNum (1 # 10)) (CNum 30) Sample.empty_world
    = (Ok decayed, Sample.empty_world)
    ∧ (0 <= decayed)%Q ∧ (decayed <= 80)%Q.
Proof.
  destruct (apply_temporal_decay_behaviour Sample.age Sample.exp_one
              (λ _ _, ltac:(vm_compute; discriminate))
              80 "2025-01-01T00:00:00" (1 # 10) 30 "x" Sample.empty_world)
    as (_ & _ & H).
  apply H; vm_compute; (discriminate || reflexivity).
Defined.

(** ** Well-formedness of the database *)

Lemma keyed_snoc {R} (id : R → Z) (rows : list R) (seq : Z) (row : R) :
  keyed id rows seq → id row = seq + 1 → keyed id (rows ++ [row])%list (seq + 1).
Proof.
  intros [Hnd Hle] Hid. split.
  - rewrite map_app. simpl. apply NoDup_app. split; [done|]. split; [|apply NoDup_singleton].
    intros i Hi ->%list_elem_of_singleton.
    apply list_elem_of_fmap in Hi as (r & Hr & Hin).
    rewrite Forall_forall in Hle. specialize (Hle r Hin). lia.
  - apply Forall_app. split.
    + eapply Forall_impl; [done|]. simpl. intros; lia.
    + apply Forall_singleton. lia.
Qed.

Lemma keyed_map {R} (id : R → Z) (g : R → R) (rows : list R) (seq : Z) :
  (∀ r, id (g r) = id r) → keyed id rows seq → keyed id (map g rows) seq.
Proof.
  intros Hg [Hnd Hle]. split.
  - rewrite map_map. by rewrite (map_ext _ id) by done.
  - apply Forall_fmap. eapply Forall_impl; [done|]. simpl. intros r. by rewrite Hg.
Qed.

Lemma keyed_filter {R} (id : R → Z) (P : R → Prop) `{∀ r, Decision (P r)}
    (rows : list R) (seq : Z) :
  keyed id rows seq → keyed id (filter P rows) seq.
Proof.
  intros [Hnd Hle]. split.
  - eapply sublist_NoDup; [done|]. change (map ?f ?l) with (f <$> l). apply fmap_sublist, sublist_filter.
  - rewrite !Forall_forall in *. intros r Hr%list_elem_of_filter. apply Hle, Hr.
Qed.

Lemma NoDup_names_filter {R} (name : R → string) (P : R → Prop) `{∀ r, Decision (P r)}
    (rows : list R) :
  NoDup (map name rows) → NoDup (map name (filter P rows)).
Proof. intros Hnd. eapply sublist_NoDup; [done|]. change (map ?f ?l) with (f <$> l). apply fmap_sublist, sublist_filter. Qed.

Lemma NoDup_names_map {R} (name : R → string) (g : R → R) (rows : list R) :
  (∀ r, name (g r) = name r) → NoDup (map name rows) → NoDup (map name (map g rows)).
Proof. intros Hg Hnd. rewrite map_map. by rewrite (map_ext _ name) by done. Qed.

Lemma NoDup_names_snoc {R} (name : R → string) (rows : list R) (row : R) :
  existsb (λ r, String.eqb (name r) (name row)) rows = false →
  NoDup (map name rows) → NoDup (map name (rows ++ [row])%list).
Proof.
  intros Hfresh Hnd. rewrite map_app. simpl.
  apply NoDup_app. split; [done|]. split; [|apply NoDup_singleton].
  intros n Hn ->%list_elem_of_singleton.
  apply list_elem_of_fmap in Hn as (r & Hr & Hin).
  assert (existsb (λ r, String.eqb (name r) (name row)) rows = true); [|congruence].
  apply existsb_exists. exists r. split; [by apply list_elem_of_In|].
  apply String.eqb_eq. done.
Qed.

Lemma keeps_ret P {A} (a : A) : keeps P (ret a).
Proof. intros w r w' [= <- <-]. done. Qed.

Lemma keeps_raise P {A} (e : exn) : keeps P (@raise A e).
Proof. intros w r w' [= <- <-]. done. Qed.

Lemma keeps_bind P {A B} (c : M A) (k : A → M B) :
  keeps P c → (∀ a, keeps P (k a)) → keeps P (bind c k).
Proof.
  intros Hc Hk w r w'. unfold bind.
  destruct (c w) as [[a|e] w1] eqn:Hcw.
  - intros Hkw HP. eapply Hk; [done|]. by eapply Hc.
  - intros [= <- <-] HP. by eapply Hc.
Qed.

Lemma keeps_now P clock : keeps P (now_isoformat clock).
Proof. intros w r w' [= <- <-]. done. Qed.

Lemma keeps_attempt P {A} (c : M A) : keeps P c → keeps P (attempt c).
Proof.
  intros Hc w r w'. unfold attempt. intros [= <- <-].
  destruct (c w) as [r1 w1] eqn:Hcw. simpl. by eapply Hc.
Qed.

Ltac keeps_reads :=
  intros ? ? ? Hrun HP; unfold_monad; simpl in Hrun;
  repeat (case_match; simplify_eq/=); done.

Lemma keeps_episodic_ops clock :
  (∀ memory, keeps db_wf (add_episodic_memory clock memory))
  ∧ (∀ i, keeps db_wf (get_episodic_memory clock i))
  ∧ (∀ i u, keeps db_wf (update_episodic_memory clock i u))
  ∧ (∀ i, keeps db_wf (delete_episodic_memory i)).
Proof.
  split; [|split; [|split]].
  - intros memory w r w' Hrun (He & Hrest).
    unfold add_episodic_memory in Hrun. unfold_monad. simpl in Hrun.
    repeat (case_match; simplify_eq/=); try done.
    split; [|done]. by apply keyed_snoc.
  - intros i w r w' Hrun (He & Hrest).
    unfold get_episodic_memory in Hrun. unfold_monad. simpl in Hrun.
    repeat (case_match; simplify_eq/=); try done.
    split; [|done]. apply keyed_map; [|done]. intros r0. by destruct (e_id r0 =? i).
  - intros i u w r w' Hrun (He & Hrest).
    unfold update_episodic_memory in Hrun. unfold_monad. simpl in Hrun. simplify_eq/=.
    split; [|done]. apply keyed_map; [|done]. intros r0. by destruct (e_id r0 =? i).
  - intros i w r w' Hrun (He & Hrest).
    unfold delete_episodic_memory in Hrun. unfold_monad. simpl in Hrun. simplify_eq/=.
    split; [|done]. by apply keyed_filter.
Qed.

Lemma keeps_semantic_ops clock :
  (∀ memory, keeps db_wf (add_semantic_memory clock memory))
  ∧ (∀ i u, keeps db_wf (update_semantic_memory clock i u))
  ∧ (∀ i, keeps db_wf (delete_semantic_memory i)).
Proof.
  split; [|split].
  - intros memory w r w' Hrun (He & Hs & Hp & Hns & Hnp).
    unfold add_semantic_memory in Hrun. unfold_monad. simpl in Hrun.
    repeat (case_match; simplify_eq/=); try done.
    split; [done|]. split; [by apply keyed_snoc|]. split; [done|]. split; [|done].
    by apply NoDup_names_snoc.
  - intros i u w r w' Hrun (He & Hs & Hp & Hns & Hnp).
    unfold update_semantic_memory in Hrun. unfold_monad. simpl in Hrun. simplify_eq/=.
    split; [done|]. split; [|split; [done|split; [|done]]].
    + apply keyed_map; [|done]. intros r0. by destruct (s_id r0 =? i).
    + apply NoDup_names_map; [|done]. intros r0. by destruct (s_id r0 =? i).
  - intros i w r w' Hrun (He & Hs & Hp & Hns & Hnp).
    unfold delete_semantic_memory in Hrun. unfold_monad. simpl in Hrun. simplify_eq/=.
    split; [done|]. split; [by apply keyed_filter|]. split; [done|]. split; [|done].
    by apply NoDup_names_filter.
Qed.

Lemma keeps_procedural_ops clock :
  (∀ memory, keeps db_wf (add_procedural_memory clock memory))
  ∧ (∀ i u, keeps db_wf (update_procedural_memory clock i u))
  ∧ (∀ i, keeps db_wf (delete_procedural_memory i)).
Proof.
  split; [|split].
  - intros memory w r w' Hrun (He & Hs & Hp & Hns & Hnp).
    unfold add_procedural_memory in Hrun. unfold_monad. simpl in Hrun.
    repeat (case_match; simplify_eq/=); try done.
    split; [done|]. split; [done|]. split; [by apply keyed_snoc|]. split; [done|].
    by apply NoDup_names_snoc.
  - intros i u w r w' Hrun (He & Hs & Hp & Hns & Hnp).
    unfold update_procedural_memory in Hrun. unfold_monad. simpl in Hrun. simplify_eq/=.
    split; [done|]. split; [done|]. split; [|split; [done|]].
    + apply keyed_map; [|done]. intros r0. by destruct (p_id r0 =? i).
    + apply NoDup_names_map; [|done]. intros r0. by destruct (p_id r0 =? i).
  - intros i w r w' Hrun (He & Hs & Hp & Hns & Hnp).
    unfold delete_procedural_memory in Hrun. unfold_monad. simpl in Hrun. simplify_eq/=.
    split; [done|]. split; [done|]. split; [by apply keyed_filter|]. split; [done|].
    by apply NoDup_names_filter.
Qed.

(** ** Operations that only read *)

Lemma leaves_ret {A} (a : A) : leaves_database (ret a).
Proof. done. Qed.

Lemma leaves_raise {A} (e : exn) : leaves_database (@raise A e).
Proof. done. Qed.

Lemma leaves_get_db : leaves_database get_db.
Proof. done. Qed.

Lemma leaves_now clock : leaves_database (now_isoformat clock).
Proof. done. Qed.

Lemma leaves_bind {A B} (c : M A) (k : A → M B) :
  leaves_database c → (∀ a, leaves_database (k a)) → leaves_database (bind c k).
Proof.
  intros Hc Hk w. unfold bind. specialize (Hc w).
  destruct (c w) as [[a|e] w1]; simpl in *; [|done].
  by rewrite Hk.
Qed.

Lemma leaves_keeps P {A} (c : M A) : leaves_database c → keeps P c.
Proof. intros Hc w r w' Hrun HP. specialize (Hc w). rewrite Hrun in Hc. simpl in Hc. by rewrite Hc. Qed.

Ltac leaves_step :=
  first [ apply leaves_ret | apply leaves_raise | apply leaves_get_db | apply leaves_now
        | apply leaves_bind; [|intros ?] ].

Ltac leaves_auto := repeat first [ leaves_step | case_match ].

Lemma leaves_number_of v : leaves_database (number_of v).
Proof. unfold number_of. leaves_auto. Qed.

Lemma leaves_section config key : leaves_database (section config key).
Proof. unfold section. leaves_auto. Qed.

Lemma leaves_section_or_empty config key : leaves_database (section_or_empty config key).
Proof. unfold section_or_empty. leaves_auto. Qed.


Lemma leaves_get_all :
  (∀ limit, leaves_database (get_all_episodic_memories limit))
  ∧ (∀ limit, leaves_database (get_all_semantic_memories limit))
  ∧ (∀ limit, leaves_database (get_all_procedural_memories limit)).
Proof. repeat split; intros limit; leaves_auto. Qed.

Lemma leaves_search :
  (∀ q n, leaves_database (search_episodic q n))
  ∧ (∀ q n, leaves_database (search_semantic q n))
  ∧ (∀ q n, leaves_database (search_procedural q n))
  ∧ (∀ a b c d, leaves_database (filter_episodic a b c d)).
Proof. repeat split; intros; leaves_auto. Qed.










Lemma leaves_next_in_chain visited terms :
  leaves_database (next_in_chain visited terms).
Proof.
  pose proof leaves_search as (He & _).
  induction terms as [|t terms IH]; simpl; [leaves_auto|].
  apply leaves_bind; [done|intros ?]. case_match; [apply leaves_ret|done].
Qed.

Lemma leaves_chain_loop depth current visited chain :
  leaves_database (chain_loop depth current visited chain).
Proof.
  revert current visited chain.
  induction depth as [|depth IH]; intros current visited chain; simpl; [leaves_auto|].
  case_match; [apply leaves_ret|].
  apply leaves_bind; [apply leaves_next_in_chain|intros [next|]]; [apply IH|apply leaves_ret].
Qed.






(** ** Well-formedness through the facade *)

Lemma keeps_merge_episodes clock k m : keeps db_wf (_merge_episodes clock k m).
Proof.
  pose proof (keeps_episodic_ops clock) as (_ & Hget & Hupd & Hdel).
  unfold _merge_episodes.
  apply keeps_bind; [done|intros keep].
  apply keeps_bind; [done|intros merge].
  destruct keep, merge; try apply keeps_ret.
  apply keeps_bind; [done|intros ?].
  apply keeps_bind; [done|intros ?]. apply keeps_ret.
Qed.

Lemma keeps_merge_later clock threshold dry_run e1 later st :
  keeps db_wf (merge_later clock threshold dry_run e1 later st).
Proof.
  revert st. induction later as [|e2 later IH]; intros st; simpl; [apply keeps_ret|].
  case_match; [done|].
  apply keeps_bind; [apply leaves_keeps, leaves_number_of|intros ?].
  repeat case_match; try done.
  apply keeps_bind; [apply keeps_merge_episodes|done].
Qed.

Lemma keeps_merge_all clock threshold dry_run l st :
  keeps db_wf (merge_all clock threshold dry_run l st).
Proof.
  revert st. induction l as [|e1 l IH]; intros st; simpl; [apply keeps_ret|].
  case_match; [done|].
  apply keeps_bind; [apply keeps_merge_later|done].
Qed.

Lemma keeps_import_each {D} (add : D → M Z) (memories : list D) :
  (∀ memory, keeps db_wf (add memory)) → keeps db_wf (import_each add memories).
Proof.
  intros Hadd. induction memories as [|memory rest IH]; simpl; [apply keeps_ret|].
  apply keeps_bind; [by apply keeps_attempt|done].
Qed.

(** X12.  The empty database is well formed, and every operation of the
    facade that writes keeps the database well formed: ids stay pairwise
    distinct and at most the table's counter, and concept names and procedure
    names stay unique; this holds also when the operation raises. *)
Theorem facade_keeps_database_well_formed clock parses config :
  db_wf empty_database
  ∧ (∀ description kwargs, keeps db_wf (store_episode clock parses description kwargs))
  ∧ (∀ name definition kwargs, keeps db_wf (store_concept clock name definition kwargs))
  ∧ (∀ name description steps kwargs,
       keeps db_wf (store_procedure clock name description steps kwargs))
  ∧ (∀ memory_id, keeps db_wf (recall_episode clock memory_id))
  ∧ (∀ name success duration, keeps db_wf (execute_procedure clock name success duration))
  ∧ (∀ name confidence, keeps db_wf (update_concept_confidence clock name confidence))
  ∧ (∀ dry_run, keeps db_wf (consolidate_memories clock config dry_run))
  ∧ (∀ memory_id memory_type, keeps db_wf (delete_memory memory_id memory_type))
  ∧ (∀ start max_depth, keeps db_wf (get_memory_chain clock start max_depth))
  ∧ (∀ data, keeps db_wf (import_memories clock data)).
Proof.
  pose proof (keeps_episodic_ops clock) as (Hadd_e & Hget_e & Hupd_e & Hdel_e).
  pose proof (keeps_semantic_ops clock) as (Hadd_s & Hupd_s & Hdel_s).
  pose proof (keeps_procedural_ops clock) as (Hadd_p & Hupd_p & Hdel_p).
  split; [repeat split; simpl; first [apply NoDup_nil_2 | apply Forall_nil_2]|].
  repeat apply conj.
  - intros description kwargs. unfold store_episode.
    apply keeps_bind; [apply keeps_now|intros now].
    repeat case_match; first [apply keeps_raise | apply Hadd_e].
  - intros name definition kwargs. unfold store_concept.
    repeat case_match; first [apply keeps_raise | apply Hadd_s].
  - intros name description steps kwargs. unfold store_procedure.
    repeat case_match; first [apply keeps_raise | apply Hadd_p].
  - done.
  - intros name success duration. unfold execute_procedure.
    apply keeps_bind; [apply leaves_keeps; unfold recall_procedure; leaves_auto|intros [p|]];
      [|apply keeps_ret].
    case_match; [apply keeps_raise|].
    apply keeps_bind; [apply keeps_now|intros ?].
    apply keeps_bind; [done|intros ?]. apply keeps_ret.
  - intros name confidence. unfold update_concept_confidence.
    apply keeps_bind; [apply leaves_keeps; unfold recall_concept; leaves_auto|intros [c|]];
      [|apply keeps_ret].
    apply keeps_bind; [done|intros ?]. apply keeps_ret.
  - intros dry_run. unfold consolidate_memories.
    apply keeps_bind; [apply leaves_keeps, leaves_section_or_empty|intros ?].
    case_match; [apply keeps_ret|].
    apply keeps_bind; [apply leaves_keeps, leaves_section|intros ?].
    apply keeps_bind; [apply leaves_keeps, leaves_get_all|intros ?].
    apply keeps_merge_all.
  - intros memory_id memory_type. unfold delete_memory.
    repeat case_match; try done. apply keeps_ret.
  - intros start max_depth. unfold get_memory_chain.
    apply keeps_bind; [done|intros [r|]]; [|apply keeps_ret].
    apply leaves_keeps, leaves_chain_loop.
  - intros data. unfold import_memories, import_from_json.
    apply keeps_bind; [by apply keeps_import_each|intros ?].
    apply keeps_bind; [by apply keeps_import_each|intros ?].
    by apply keeps_import_each.
Qed.

(** ** Insert and read back *)

Lemma find_snoc_fresh (rows : list episodic_row) (row : episodic_row) (seq j : Z) :
  Forall (λ r, e_id r <= seq) rows → e_id row = seq + 1 →
  find (λ r, e_id r =? j) (rows ++ [row])%list
  = if j =? seq + 1 then Some row else find (λ r, e_id r =? j) rows.
Proof.
  intros Hle Hid. induction Hle as [|r rows Hr Hle IH]; simpl.
  - rewrite Hid. by destruct (seq + 1 =? j) eqn:E1, (j =? seq + 1) eqn:E2; try lia.
  - destruct (e_id r =? j) eqn:Hj; [|done].
    destruct (j =? seq + 1) eqn:E; [lia|done].
Qed.

Lemma add_episodic_memory_effect clock (memory : episodic_dict) (w w' : world) (i : Z) :
  Forall (λ r, e_id r <= episodic_seq (db w)) (episodic_memory (db w)) →
  add_episodic_memory clock memory w = (Ok i, w') →
  i = episodic_seq (db w) + 1
  ∧ episodic_seq (db w') = i
  ∧ semantic_memory (db w') = semantic_memory (db w)
  ∧ procedural_memory (db w') = procedural_memory (db w)
  ∧ ∃ row,
      episodic_memory (db w') = (episodic_memory (db w) ++ [row])%list
      ∧ (∀ j, stored_episode j w' = if j =? i then Some row else stored_episode j w)
      ∧ e_id row = i
      ∧ ed_event_description memory = Some (PyStr (e_event_description row))
      ∧ e_tags row = ed_tags memory
      ∧ e_retrieval_count row = default 0 (ed_retrieval_count memory)
      ∧ e_context row = ed_context memory
      ∧ e_observations row = ed_observations memory.
Proof.
  intros Hle Hrun.
  unfold add_episodic_memory in Hrun. unfold_monad. simpl in Hrun.
  repeat (case_match; simplify_eq/=).
  split; [done|]. split; [done|]. split; [done|]. split; [done|].
  eexists. split; [reflexivity|]. split.
  - intros j. unfold stored_episode. simpl. by apply find_snoc_fresh.
  - simpl. by repeat split.
Qed.

(** X14.  A stored episode can be read back: [store_episode] answers the
    next id of the table, which no row had, leaves every other row alone,
    and [recall_episode] of that id finds the row with the given
    description, the caller's tags or else the keywords of the description,
    the caller's retrieval count or else zero, and the caller's context and
    observations. *)
Theorem store_episode_recall_round_trip clock parses (description : string)
    (kwargs : episodic_dict) (w w' : world) (memory_id : Z) :
  db_wf (db w) →
  store_episode clock parses description kwargs w = (Ok memory_id, w') →
  memory_id = episodic_seq (db w) + 1
  ∧ episodic_seq (db w') = memory_id
  ∧ stored_episode memory_id w = None
  ∧ (∀ j, j ≠ memory_id → stored_episode j w' = stored_episode j w)
  ∧ ∃ row w'',
      recall_episode clock memory_id w' = (Ok (Some row), w'')
      ∧ e_id row = memory_id
      ∧ e_event_description row = description
      ∧ e_tags row = Some (tags_or_keywords (ed_tags kwargs) description)
      ∧ e_retrieval_count row = default 0 (ed_retrieval_count kwargs)
      ∧ e_context row = ed_context kwargs
      ∧ e_observations row = ed_observations kwargs.
Proof.
  intros ((Hnd & Hle) & _) Hrun.
  unfold store_episode in Hrun. unfold bind at 1 in Hrun. unfold now_isoformat at 1 in Hrun.
  destruct (validate_episodic_memory _ _) as [[] error]; [|by unfold raise in Hrun].
  apply add_episodic_memory_effect in Hrun; [|done]. simpl in Hrun.
  destruct Hrun as (Hid & Hseq & _ & _ & row & _ & Hfind & Hrid & Hdesc & Htags & Hcount
                    & Hctx & Hobs).
  split; [done|]. split; [done|]. split; [|split].
  - unfold stored_episode. destruct (find _ _) as [r|] eqn:Hr; [|done].
    apply find_some in Hr as [Hin Hr]. rewrite Forall_forall in Hle.
    apply list_elem_of_In, Hle in Hin. lia.
  - intros j Hj. rewrite Hfind. by rewrite (proj2 (Z.eqb_neq _ _)).
  - destruct (get_episodic_memory_effect clock memory_id w') as (w2 & Hget & _).
    rewrite Hfind, Z.eqb_refl in Hget.
    exists row, w2. split; [exact Hget|]. split; [done|]. split; [congruence|]. done.
Qed.

Lemma store_episode_recall_round_trip_witness :
  ∃ row w'',
    recall_episode Sample.clock 1
      (snd (store_episode Sample.clock Sample.parses "User logged in from Berlin"
              Sample.no_episodic_kwargs Sample.empty_world))
    = (Ok (Some row), w'')
    ∧ e_event_description row = "User logged in from Berlin"
    ∧ e_tags row = Some ["user"; "logged"; "berlin"].
Proof.
  destruct (store_episode_recall_round_trip Sample.clock Sample.parses
              "User logged in from Berlin" Sample.no_episodic_kwargs Sample.empty_world
              (snd (store_episode Sample.clock Sample.parses "User logged in from Berlin"
                      Sample.no_episodic_kwargs Sample.empty_world)) 1)
    as (_ & _ & _ & _ & row & w'' & Hget & _ & Hdesc & Htags & _).
  - repeat split; simpl; first [apply NoDup_nil_2 | apply Forall_nil_2].
  - reflexivity.
  - exists row, w''. split; [exact Hget|]. split; [exact Hdesc|]. exact Htags.
Defined.


Lemma existsb_find_None {A} (f : A → bool) (l : list A) :
  existsb f l = false ↔ find f l = None.
Proof.
  induction l as [|x l IH]; simpl; [done|]. destruct (f x); simpl; [split; discriminate|done].
Qed.




(** X16.  Names are unique keys: storing a concept under a name the table
    already has, or a procedure under a name its table already has, raises
    and leaves the database as it was; the error is the validation's
    [ValueError] or the table's [IntegrityError]. *)
Theorem store_under_taken_name_rejected clock :
  (∀ name definition kwargs w r w',
     stored_concept name w ≠ None →
     store_concept clock name definition kwargs w = (r, w') →
     db w' = db w
     ∧ ((∃ msg, r = Raise (ValueError msg))
        ∨ r = Raise (IntegrityError "UNIQUE constraint failed: semantic_memory.concept_name")))
  ∧ (∀ name description steps kwargs w r w',
       stored_procedure name w ≠ None →
       store_procedure clock name description steps kwargs w = (r, w') →
       db w' = db w
       ∧ ((∃ msg, r = Raise (ValueError msg))
          ∨ r = Raise (IntegrityError
                         "UNIQUE constraint failed: procedural_memory.procedure_name"))).
Proof.
  split.
  - intros name definition kwargs w r w' Htaken.
    unfold store_concept, validate_semantic_memory. simpl.
    destruct (negb (str_truthy name)); [unfold raise; intros [= <- <-]; eauto|].
    destruct (negb (str_truthy definition)); [unfold raise; intros [= <- <-]; eauto|].
    destruct (from_option _ _ _) eqn:Hrange; [unfold raise; intros [= <- <-]; eauto|].
    unfold add_semantic_memory. unfold_monad. simpl.
    destruct (sd_confidence_score kwargs) as [[|q| |]|]; simpl in *; try discriminate.
    + destruct (existsb _ _) eqn:Hfresh; [intros [= <- <-]; eauto|].
      apply existsb_find_None in Hfresh. simpl in Hfresh. done.
    + destruct (existsb _ _) eqn:Hfresh; [intros [= <- <-]; eauto|].
      apply existsb_find_None in Hfresh. simpl in Hfresh. done.
  - intros name description steps kwargs w r w' Htaken.
    unfold store_procedure, validate_procedural_memory. simpl.
    destruct (negb (str_truthy name)); [unfold raise; intros [= <- <-]; eauto|].
    destruct (negb (str_truthy description)); [unfold raise; intros [= <- <-]; eauto|].
    destruct (negb (truthy steps)); [unfold raise; intros [= <- <-]; eauto|].
    destruct steps as [| | |l]; simpl; try (unfold raise; intros [= <- <-]; by eauto).
    destruct (from_option _ _ _) eqn:Hrange; [unfold raise; intros [= <- <-]; eauto|].
    unfold add_procedural_memory. unfold_monad. simpl.
    destruct (pd_success_rate kwargs) as [[|q| |]|]; simpl in *; try discriminate.
    + destruct (existsb _ _) eqn:Hfresh; [intros [= <- <-]; eauto|].
      apply existsb_find_None in Hfresh. simpl in Hfresh. done.
    + destruct (existsb _ _) eqn:Hfresh; [intros [= <- <-]; eauto|].
      apply existsb_find_None in Hfresh. simpl in Hfresh. done.
Qed.

Lemma store_under_taken_name_rejected_witness :
  store_concept Sample.clock "Rocq" "A second definition" Sample.no_semantic_kwargs
    (snd (store_concept Sample.clock "Rocq" "An interactive proof assistant"
            Sample.no_semantic_kwargs Sample.empty_world))
  = (Raise (IntegrityError "UNIQUE constraint failed: semantic_memory.concept_name"),
     snd (store_concept Sample.clock "Rocq" "A second definition" Sample.no_semantic_kwargs
            (snd (store_concept Sample.clock "Rocq" "An interactive proof assistant"
                    Sample.no_semantic_kwargs Sample.empty_world))))
  ∧ db (snd (store_concept Sample.clock "Rocq" "A second definition"
               Sample.no_semantic_kwargs
               (snd (store_concept Sample.clock "Rocq" "An interactive proof assistant"
                       Sample.no_semantic_kwargs Sample.empty_world))))
    = db (snd (store_concept Sample.clock "Rocq" "An interactive proof assistant"
                 Sample.no_semantic_kwargs Sample.empty_world)).
Proof.
  destruct (store_under_taken_name_rejected Sample.clock) as [Hc _].
  split; [reflexivity|].
  eapply (Hc "Rocq" "A second definition" Sample.no_semantic_kwargs _
            (Raise (IntegrityError "UNIQUE constraint failed: semantic_memory.concept_name")));
    [discriminate|reflexivity].
Defined.

(** ** Deleting *)

Lemma filter_bool_idemp {A} (f : A → bool) (l : list A) :
  filter (λ x, f x) (filter (λ x, f x) l) = filter (λ x, f x) l.
Proof.
  induction l as [|x l IH]; [done|].
  rewrite filter_cons. destruct (decide (f x)) as [Hx|Hx]; [|done].
  rewrite filter_cons. destruct (decide (f x)); [|done]. by rewrite IH.
Qed.

Lemma existsb_filter_negb {A} (f : A → bool) (l : list A) :
  existsb f (filter (λ x, negb (f x)) l) = false.
Proof.
  induction l as [|x l IH]; [done|].
  rewrite filter_cons. destruct (decide (negb (f x))) as [Hx|Hx]; [|done].
  simpl. rewrite IH. by destruct (f x).
Qed.

Lemma existsb_is_Some_find {A} (f : A → bool) (l : list A) :
  existsb f l = bool_decide (is_Some (find f l)).
Proof.
  induction l as [|x l IH]; simpl; [done|].
  destruct (f x); simpl; done.
Qed.

(** X17.  Deleting an episode by id never raises; it answers whether a row
    had the id, afterwards no row has it, every other id reads as before,
    the id counter and the other two tables are untouched, and deleting the
    same id again answers [False] and changes nothing. *)
Theorem delete_memory_episodic (memory_id : Z) (w : world) :
  ∃ w',
    delete_memory memory_id "episodic" w
    = (Ok (bool_decide (is_Some (stored_episode memory_id w))), w')
    ∧ stored_episode memory_id w' = None
    ∧ (∀ j, j ≠ memory_id → stored_episode j w' = stored_episode j w)
    ∧ episodic_seq (db w') = episodic_seq (db w)
    ∧ semantic_memory (db w') = semantic_memory (db w)
    ∧ procedural_memory (db w') = procedural_memory (db w)
    ∧ delete_memory memory_id "episodic" w' = (Ok false, w').
Proof.
  unfold delete_memory. simpl. unfold delete_episodic_memory. unfold_monad. simpl.
  eexists. split; [by rewrite existsb_is_Some_find|]. simpl.
  split; [|split; [|split; [done|split; [done|split; [done|]]]]].
  - unfold stored_episode. simpl. by rewrite find_filter_by_id, Z.eqb_refl.
  - intros j Hj. unfold stored_episode. simpl.
    by rewrite find_filter_by_id, (proj2 (Z.eqb_neq _ _)).
  - rewrite existsb_filter_negb.
    rewrite (filter_bool_idemp (λ r, negb (e_id r =? memory_id))). done.
Qed.

Lemma NoDup_fmap_inj {A B} (f : A → B) (l : list A) (x y : A) :
  NoDup (map f l) → x ∈ l → y ∈ l → f x = f y → x = y.
Proof.
  intros Hnd Hx Hy Hf.
  apply list_elem_of_lookup in Hx as [i Hi]. apply list_elem_of_lookup in Hy as [j Hj].
  assert (i = j) as ->; [|congruence].
  change (map f l) with (f <$> l) in Hnd.
  eapply NoDup_lookup; [done| |]; rewrite list_lookup_fmap.
  - by rewrite Hi.
  - rewrite Hj. simpl. by rewrite Hf.
Qed.

Lemma find_elem_of {A} (f : A → bool) (l : list A) (x : A) :
  find f l = Some x → x ∈ l ∧ f x = true.
Proof. intros H. apply find_some in H as [Hin Hf]. split; [by apply list_elem_of_In|done]. Qed.

Lemma find_filter_ext {A} (f g : A → bool) (l : list A) :
  (∀ x, x ∈ l → f x = true → g x = true) →
  find f (filter (λ x, g x) l) = find f l.
Proof.
  induction l as [|x l IH]; intros Hfg; [done|].
  rewrite filter_cons. simpl.
  assert (IH' : find f (filter (λ x, g x) l) = find f l).
  { apply IH. intros y Hy. apply Hfg. by right. }
  destruct (decide (g x)) as [Hg|Hg]; simpl; rewrite IH'; [done|].
  destruct (f x) eqn:Hf; [|done].
  exfalso. apply Hg. rewrite Hfg; [done|by left|done].
Qed.

Lemma find_None_filter {A} (f g : A → bool) (l : list A) :
  (∀ x, x ∈ l → f x = true → g x = false) →
  find f (filter (λ x, g x) l) = None.
Proof.
  induction l as [|x l IH]; intros Hfg; [done|].
  rewrite filter_cons.
  assert (IH' : find f (filter (λ x, g x) l) = None).
  { apply IH. intros y Hy. apply Hfg. by right. }
  destruct (decide (g x)) as [Hg|Hg]; simpl; [|done].
  destruct (f x) eqn:Hf; [|done].
  rewrite Hfg in Hg; [done|by left|done].
Qed.

(** X18.  In a well-formed database, deleting the concept stored under a
    name frees exactly that name: the delete answers [True], the name reads
    as absent afterwards, and every other name reads as before. *)
Theorem delete_concept_frees_name (name : string) (row : semantic_row) (w : world) :
  db_wf (db w) →
  stored_concept name w = Some row →
  ∃ w',
    delete_memory (s_id row) "semantic" w = (Ok true, w')
    ∧ stored_concept name w' = None
    ∧ (∀ other, other ≠ name → stored_concept other w' = stored_concept other w)
    ∧ episodic_memory (db w') = episodic_memory (db w)
    ∧ procedural_memory (db w') = procedural_memory (db w).
Proof.
  intros (_ & (Hids & _) & _ & Hnames & _) Hrow.
  apply find_elem_of in Hrow as [Hin Hname]. apply String.eqb_eq in Hname.
  unfold delete_memory. simpl. unfold delete_semantic_memory. unfold_monad. simpl.
  assert (Hfound : existsb (λ r, s_id r =? s_id row) (semantic_memory (db w)) = true).
  { apply existsb_exists. exists row. split; [by apply list_elem_of_In|]. apply Z.eqb_refl. }
  rewrite Hfound.
  eexists. split; [reflexivity|]. simpl. split; [|split; [|done]].
  - unfold stored_concept. simpl. apply find_None_filter.
    intros r Hr Hrname. apply String.eqb_eq in Hrname.
    assert (r = row) as ->; [|by rewrite Z.eqb_refl].
    eapply (NoDup_fmap_inj s_concept_name); [done..|congruence].
  - intros other Hother. unfold stored_concept. simpl. apply find_filter_ext.
    intros r Hr Hrname. apply String.eqb_eq in Hrname.
    apply negb_true_iff, Z.eqb_neq. intros Hid.
    assert (r = row) as ->; [|congruence].
    by eapply (NoDup_fmap_inj s_id).
Qed.

Lemma delete_concept_frees_name_witness :
  ∃ w',
    delete_memory 1 "semantic"
      (snd (store_concept Sample.clock "Rocq" "An interactive proof assistant"
              Sample.no_semantic_kwargs Sample.empty_world))
    = (Ok true, w')
    ∧ stored_concept "Rocq" w' = None.
Proof.
  destruct (delete_concept_frees_name "Rocq"
              {| s_id := 1; s_concept_name := "Rocq";
                 s_definition := "An interactive proof assistant";
                 s_properties := None; s_relationships := None;
                 s_confidence_score := 1 # 2; s_source := None; s_evidence := None;
                 s_tags := Some ["interactive"; "proof"; "assistant"];
                 s_categories := None; s_linked_episodes := None;
                 s_created_at := "2025-06-01T12:00:00";
                 s_updated_at := "2025-06-01T12:00:00" |}
              (snd (store_concept Sample.clock "Rocq" "An interactive proof assistant"
                      Sample.no_semantic_kwargs Sample.empty_world)))
    as (w' & Hdel & Hfree & _).
  - repeat split; simpl;
      first [apply NoDup_nil_2 | apply Forall_nil_2 | apply NoDup_singleton
            | apply Forall_singleton; simpl; lia].
  - reflexivity.
  - exists w'. split; [exact Hdel|exact Hfree].
Defined.

(** ** Consolidation at threshold one: which rows go *)




Section ConsolidationOfDistinctIds.
Variable clock : nat → string.
Variable threshold : cval.
Variable thr : Q.
Hypothesis threshold_number : cval_number threshold = Some thr.


End ConsolidationOfDistinctIds.



